(** * pascal_lib.c: the runtime shim linked with the Pascal compiler's output

    A shallow embedding of [pascal_lib.c] and the properties of its
    functions.  The C types are modelled on an ILP32/LP64 platform with IEEE
    754 arithmetic evaluated in the declared precision:

    - [int] is a 32-bit two's complement integer, a [Z] in
      [INT_MIN .. INT_MAX];
    - [double] is binary64 and [float] is binary32, both as the Standard
      Library's [spec_float] with round-to-nearest-even operations
      ([SFadd], [SFsub], [binary_normalize]);
    - a conversion whose result C leaves undefined returns [None];
    - a [spec_float] has one NaN, without sign or payload: the text that
      [printf] writes for a NaN, [nan] or [-nan], is left open;
    - calls that leave the translation unit ([printf], [malloc],
      [asm_main]) are nodes of a program tree, answered by the platform. *)

From Stdlib Require Import ZArith Lia Bool List String Ascii.
From Stdlib Require Import SpecFloat DecimalString DecimalZ DecimalN DecimalPos DecimalFacts.
Import ListNotations.

Local Open Scope string_scope.
Local Open Scope Z_scope.

(** ** C scalar types *)

Definition INT_MIN : Z := - 2 ^ 31.
Definition INT_MAX : Z := 2 ^ 31 - 1.

Definition in_int_range (n : Z) : bool := (INT_MIN <=? n) && (n <=? INT_MAX).

(** [double]: prec = 53, emax = 1024.  [float]: prec = 24, emax = 128. *)
Definition double := spec_float.
Definition float := spec_float.

Definition valid_double (x : double) : bool := valid_binary 53 1024 x.
Definition valid_float (f : float) : bool := valid_binary 24 128 f.

(** *** Conversions (C11 6.3.1.4 and 6.3.1.5) *)

(** Integer part of a finite value, the fraction discarded (toward zero). *)
Definition SFtrunc (x : spec_float) : option Z :=
  match x with
  | S754_zero _ => Some 0
  | S754_finite s m e =>
      Some (cond_Zopp s (if 0 <=? e then Zpos m * 2 ^ e else Zpos m / 2 ^ (- e)))
  | S754_infinity _ | S754_nan => None
  end.

(** An integer as an [int], when it is one. *)
Definition checked_int (n : Z) : option Z := if in_int_range n then Some n else None.

(** [(int) x]: defined only when the integer part is an [int]. *)
Definition int_of_double (x : double) : option Z :=
  match SFtrunc x with
  | Some n => checked_int n
  | None => None
  end.

(** [(double) f]: every [float] value is a [double] value. *)
Definition double_of_float (f : float) : double :=
  match f with
  | S754_finite s m e => binary_normalize 53 1024 (cond_Zopp s (Zpos m)) e s
  | _ => f
  end.

(** [(float) x]: rounded to nearest, ties to even. *)
Definition float_of_double (x : double) : float :=
  match x with
  | S754_finite s m e => binary_normalize 24 128 (cond_Zopp s (Zpos m)) e s
  | _ => x
  end.

(** [(float) n] and [(double) n] for an [int] [n]. *)
Definition float_of_int (n : Z) : float := binary_normalize 24 128 n 0 false.
Definition double_of_int (n : Z) : double := binary_normalize 53 1024 n 0 false.

(** A decimal literal [num/den] of type [double]: the nearest binary64. *)
Definition double_lit (num den : Z) : double :=
  SFdiv 53 1024 (double_of_int num) (double_of_int den).

Definition float_lit (num den : Z) : float :=
  float_of_double (double_lit num den).

(** The constants [0.0] and [0.5] of [iround]. *)
Definition d_zero : double := S754_zero false.
Definition d_half : double := S754_finite false 4503599627370496 (-53).

(** [x >= 0.0]: false when [x] is a NaN. *)
Definition SFge (x y : spec_float) : bool := SFleb y x.

(** ** The rounding helper

<<
int iround(double x) {
	int n;
	if ( x >= 0.0 )
		n = x + 0.5;
	else n = x - 0.5;
	return ( n );
}
>> *)

Definition iround (x : double) : option Z :=
  if SFge x d_zero then int_of_double (SFadd 53 1024 x d_half)
  else int_of_double (SFsub 53 1024 x d_half).

(** The adjusted value: what [iround] converts to [int]. *)
Definition iround_adjust (x : double) : double :=
  if SFge x d_zero then SFadd 53 1024 x d_half else SFsub 53 1024 x d_half.

(** The conversion to [int] is defined on [x]. *)
Definition fits_int (x : double) : bool :=
  match SFtrunc x with
  | Some t => in_int_range t
  | None => false
  end.

(** The value the claims compare [iround] with: the integer nearest to the
    exact value of [x], a tie going away from zero.  For [x = m * 2^e] with
    [e < 0] its magnitude is [floor (m / 2^-e + 1/2)]. *)
Definition nearest_away_mag (m : positive) (e : Z) : Z :=
  if 0 <=? e then Zpos m * 2 ^ e else (2 * Zpos m + 2 ^ (- e)) / 2 ^ (1 - e).

Definition round_half_away (x : double) : option Z :=
  match x with
  | S754_zero _ => Some 0
  | S754_finite s m e => Some (cond_Zopp s (nearest_away_mag m e))
  | S754_infinity _ | S754_nan => None
  end.

(** The exact magnitude [m * 2^e] of a finite value, as a fraction
    [num / den] of integers. *)
Definition magnitude (m : positive) (e : Z) : Z * Z :=
  if 0 <=? e then (Zpos m * 2 ^ e, 1) else (Zpos m, 2 ^ (- e)).

(** [n] is the integer nearest to the exact value of [x], a tie going away
    from zero: [|n| - 1/2 <= |x| < |n| + 1/2] with the sign of [x], stated
    on the fraction [num / den = |x|]. *)
Definition is_nearest_away (x : double) (n : Z) : bool :=
  match x with
  | S754_zero _ => n =? 0
  | S754_finite s m e =>
      let '(num, den) := magnitude m e in
      let k := Z.abs n in
      (n =? cond_Zopp s k) && ((2 * k - 1) * den <=? 2 * num)
        && (2 * num <? (2 * k + 1) * den)
  | S754_infinity _ | S754_nan => false
  end.

(** [0.5 - 2^-54], the largest [double] below one half. *)
Definition d_pred_half : double := S754_finite false 9007199254740991 (-54).

(** The finite value [y] is exactly the integer [n]. *)
Definition represents_int (y : spec_float) (n : Z) : bool :=
  match y with
  | S754_zero _ => n =? 0
  | S754_finite s m e =>
      if 0 <=? e then n =? cond_Zopp s (Zpos m * 2 ^ e)
      else (Zpos m mod 2 ^ (- e) =? 0) && (n =? cond_Zopp s (Zpos m / 2 ^ (- e)))
  | S754_infinity _ | S754_nan => false
  end.

(** [x] and [y], which may be of different formats, are the same value:
    the same zero, infinity or NaN, or finite of the same sign with equal
    magnitudes as fractions. *)
Definition same_value (x y : spec_float) : bool :=
  match x, y with
  | S754_zero s1, S754_zero s2 => Bool.eqb s1 s2
  | S754_infinity s1, S754_infinity s2 => Bool.eqb s1 s2
  | S754_nan, S754_nan => true
  | S754_finite s1 m1 e1, S754_finite s2 m2 e2 =>
      Bool.eqb s1 s2
        && (fst (magnitude m1 e1) * snd (magnitude m2 e2)
              =? fst (magnitude m2 e2) * snd (magnitude m1 e1))
  | _, _ => false
  end.

(** ** One rounding to nearest even, in integer arithmetic

    [round_spec prec emax s M e] is the float of sign [s] nearest to
    [M * 2^e] for [0 < M]: the value [binary_round] computes, written with
    [Z] division instead of bit-by-bit shifts. *)

Definition fin_or_inf (prec emax : Z) (s : bool) (m e : Z) : spec_float :=
  match m with
  | Z0 => S754_zero s
  | Zpos p => if e <=? emax - prec then S754_finite s p e else S754_infinity s
  | Zneg _ => S754_nan
  end.

(** The quotient [q] with its round bit [r] and sticky bit [s]. *)
Definition round_even (q : Z) (r s : bool) : Z :=
  if r && (s || Z.odd q) then q + 1 else q.

Definition round_spec (prec emax : Z) (s : bool) (M e : Z) : spec_float :=
  let e0 := fexp prec emax (Zdigits2 M + e) in
  if e0 <=? e then fin_or_inf prec emax s (M * 2 ^ (e - e0)) e0
  else
    let n := e0 - e in
    let q' := round_even (M / 2 ^ n) (Z.odd (M / 2 ^ (n - 1)))
                (negb (M mod 2 ^ (n - 1) =? 0)) in
    if q' =? 2 ^ prec then fin_or_inf prec emax s (2 ^ (prec - 1)) (e0 + 1)
    else fin_or_inf prec emax s q' e0.

(** ** Formatted output: [printf] restricted to [%s], [%g], [%d] and [%%]

    The text of each conversion follows C11 7.21.6.1; a decimal rendering
    that is not exact is rounded to nearest, ties to even, as the
    arithmetic is. *)

Definition nl : string := String (ascii_of_nat 10) EmptyString.

(** Decimal digits of a non-negative integer, no leading zero. *)
Definition dec (n : Z) : string := NilEmpty.string_of_uint (N.to_uint (Z.to_N n)).

(** The number of decimal digits of [n], for [1 <= n]: one digit, and one
    more for each division by ten that leaves ten or more. *)
Fixpoint ndigits_aux (fuel : nat) (n : Z) : Z :=
  match fuel with
  | O => 1
  | S fuel' => if n <? 10 then 1 else 1 + ndigits_aux fuel' (n / 10)
  end.

Definition ndigits (n : Z) : Z := ndigits_aux (Z.to_nat (Z.log2 n)) n.

(** [%d]: a minus sign for a negative value, then the decimal digits. *)
Definition fmt_d (n : Z) : string := NilEmpty.string_of_int (Z.to_int n).

Fixpoint zeros (k : nat) : string :=
  match k with O => EmptyString | S k' => String "0" (zeros k') end.

Fixpoint strip_zeros (s : string) : string :=
  match s with
  | EmptyString => EmptyString
  | String c r =>
      match strip_zeros r with
      | EmptyString => if Ascii.eqb c "0" then EmptyString else String c EmptyString
      | r' => String c r'
      end
  end.

(** A fraction part; it is omitted with its point when it is all zeros. *)
Definition fraction (digits : string) : string :=
  match strip_zeros digits with
  | EmptyString => EmptyString
  | ds => String "." ds
  end.

(** Nearest integer to [n / d], ties to even ([0 < d]). *)
Definition div_nearest_even (n d : Z) : Z :=
  let q := n / d in
  let r := n mod d in
  match 2 * r ?= d with
  | Lt => q
  | Eq => if Z.even q then q else q + 1
  | Gt => q + 1
  end.

(** [floor (log10 (n / d))] for [0 < n] and [0 < d]. *)
Definition log10_floor (n d : Z) : Z :=
  if d <=? n then ndigits (n / d) - 1 else - ndigits ((d - 1) / n).

(** [n / d * 10 ^ k], rounded to an integer. *)
Definition scale10 (n d k : Z) : Z :=
  if 0 <=? k then div_nearest_even (n * 10 ^ k) d
  else div_nearest_even n (d * 10 ^ (- k)).


(** The number [P] of significant digits of [%g] when none is given. *)
Definition G_PRECISION : Z := 6.

(** The [P] digits, as an integer, and the decimal exponent [X] of
    [n / d] in style [e]. *)
Definition sci_digits (n d : Z) : Z * Z :=
  let x0 := log10_floor n d in
  let m := scale10 n d (G_PRECISION - 1 - x0) in
  if m =? 10 ^ G_PRECISION then (10 ^ (G_PRECISION - 1), x0 + 1) else (m, x0).

(** The exponent of style [e]: a sign and at least two digits. *)
Definition exponent_part (x : Z) : string :=
  "e" ++ (if x <? 0 then "-" else "+")
      ++ (if Z.abs x <? 10 then "0" else "") ++ dec (Z.abs x).

(** [%g] of the positive value [n / d]: style [f] with [P - 1 - X] decimals
    when [-4 <= X < P], style [e] with [P - 1] decimals otherwise, trailing
    zeros removed in both. *)
Definition fmt_g_pos (n d : Z) : string :=
  let '(m, x) := sci_digits n d in
  let ds := dec m in
  if (-4 <=? x) && (x <? G_PRECISION) then
    if 0 <=? x then
      substring 0 (Z.to_nat (x + 1)) ds
        ++ fraction (substring (Z.to_nat (x + 1)) (Z.to_nat (G_PRECISION - 1 - x)) ds)
    else "0" ++ fraction (zeros (Z.to_nat (- x - 1)) ++ ds)
  else
    substring 0 1 ds ++ fraction (substring 1 (Z.to_nat (G_PRECISION - 1)) ds)
      ++ exponent_part x.

Definition sign_part (s : bool) : string := if s then "-" else "".

(** [%g] of a [double].  A NaN is written [nan] or [-nan] according to
    its sign bit, which a [spec_float] does not carry: its text is left
    open, [None]. *)
Definition fmt_g (x : double) : option string :=
  match x with
  | S754_nan => None
  | S754_infinity s => Some (sign_part s ++ "inf")
  | S754_zero s => Some (sign_part s ++ "0")
  | S754_finite s m e => let '(n, d) := magnitude m e in Some (sign_part s ++ fmt_g_pos n d)
  end.

(** The variable arguments as [printf] receives them: a [float] has been
    promoted to [double] by then. *)
Inductive vararg : Type :=
| VaStr (s : string)
| VaDouble (x : double)
| VaInt (n : Z).

(** The text one [printf] call writes; [None] where the format and the
    arguments do not agree (the call is undefined), and where the text of
    an argument is left open. *)
Fixpoint vprintf (fmt : string) (args : list vararg) : option string :=
  match fmt with
  | EmptyString => Some EmptyString
  | String "%" EmptyString => None
  | String "%" (String c rest) =>
      match c, args with
      | "%"%char, _ => option_map (String "%") (vprintf rest args)
      | "s"%char, VaStr s :: args' => option_map (append s) (vprintf rest args')
      | "g"%char, VaDouble x :: args' =>
          match fmt_g x with
          | Some text => option_map (append text) (vprintf rest args')
          | None => None
          end
      | "d"%char, VaInt n :: args' => option_map (append (fmt_d n)) (vprintf rest args')
      | _, _ => None
      end
  | String c rest => option_map (String c) (vprintf rest args)
  end.

(** ** Reading a decimal text

    What a text of the form [-]digits[.digits][e(+|-)digits] says, to
    compare the text written for a [double] with the value: the sign, the
    integer [M] that the digits before and after the point spell, the
    number of digits after the point, and the exponent if there is one.
    The text denotes [M * 10 ^ (exponent - decimals)].  A text with a
    point and no digit on either side of it, with leading zeros before the
    point, or with an exponent of fewer than two digits is not read. *)








(** ** Calls that leave the translation unit *)

(** An address; [NULL] is the null pointer. *)
Definition pointer := Z.
Definition NULL : pointer := 0.

(** The external functions the file calls, indexed by their result type:
    [printf] and [malloc] of the C library and [asm_main] of the linked
    assembly. *)
Inductive call : Type -> Type :=
| Printf (fmt : string) (args : list vararg) : call Z
| Malloc (size : Z) : call pointer
| Asm_main : call Z.

(** A function body: it returns, or makes a call and goes on with the
    answer. *)
Inductive prog (R : Type) : Type :=
| Ret (r : R)
| Call (X : Type) (c : call X) (k : X -> prog R).

Arguments Ret {R} r.
Arguments Call {R X} c k.

Fixpoint bind {A B : Type} (p : prog A) (f : A -> prog B) : prog B :=
  match p with
  | Ret a => f a
  | Call c k => Call c (fun x => bind (k x) f)
  end.

Notation "p ;; q" := (bind p (fun _ => q)) (at level 61, right associativity).

(** The platform under the program: the state of what lies outside and the
    answer it gives to each call. *)
Record platform : Type := {
  pstate : Type;
  answer : forall X : Type, call X -> pstate -> X * pstate
}.

(** What an observer of the calls sees. *)
Inductive event : Type :=
| Ev_printf (fmt : string) (args : list vararg)
| Ev_malloc (size : Z) (p : pointer)
| Ev_asm_main (status : Z).

Definition event_of {X : Type} (c : call X) : X -> event :=
  match c in call T return T -> event with
  | Printf fmt args => fun _ => Ev_printf fmt args
  | Malloc size => fun p => Ev_malloc size p
  | Asm_main => fun r => Ev_asm_main r
  end.

(** Running a body on a platform: its result, the platform's final state
    and the calls made, in order. *)
Fixpoint run (os : platform) {R : Type} (p : prog R) (st : pstate os)
  : R * pstate os * list event :=
  match p with
  | Ret r => (r, st, [])
  | Call c k =>
      let '(x, st1) := answer os _ c st in
      let '(r, st2, tr) := run os (k x) st1 in
      (r, st2, event_of c x :: tr)
  end.

Definition result_of {R S : Type} (o : R * S * list event) : R := fst (fst o).
Definition trace_of {R S : Type} (o : R * S * list event) : list event := snd o.

(** The text a sequence of calls leaves on standard output. *)
Fixpoint stdout_of (tr : list event) : option string :=
  match tr with
  | [] => Some EmptyString
  | Ev_printf fmt args :: tr' =>
      match vprintf fmt args, stdout_of tr' with
      | Some a, Some b => Some (a ++ b)
      | _, _ => None
      end
  | _ :: tr' => stdout_of tr'
  end.

(** How often [asm_main] was entered. *)
Definition asm_main_calls (tr : list event) : nat :=
  List.length (filter (fun ev => match ev with Ev_asm_main _ => true | _ => false end) tr).

Definition stdout_after {R S : Type} (o : R * S * list event) : option string :=
  stdout_of (trace_of o).

(** A platform to run examples on: [asm_main] exits with [status];
    [printf] answers the number of characters written; [malloc] hands out
    a heap of [limit] bytes from address 4096 upward and answers [NULL]
    once it is exhausted.  The state is the number of bytes handed out. *)
Definition demo_platform (status limit : Z) : platform :=
  {| pstate := Z;
     answer := fun (X : Type) (c : call X) (used : Z) =>
       match c in call T return T * Z with
       | Printf fmt args =>
           (match vprintf fmt args with
            | Some text => Z.of_nat (String.length text)
            | None => -1
            end, used)
       | Malloc size =>
           if size <=? limit - used then (4096 + used, used + size) else (NULL, used)
       | Asm_main => (status, used)
       end |}.

(** ** The functions of [pascal_lib.c] *)

(** [int main() { return asm_main(); }] *)
Definition main : prog Z := Call Asm_main (fun status => Ret status).

(** [void write(char str[]) { printf("%s", str); }]; a string argument is
    the characters before its terminating null. *)
Definition write (str : string) : prog unit :=
  Call (Printf "%s" [VaStr str]) (fun _ => Ret tt).

(** [void writeln(char str[])]: the format is [%s] and a newline. *)
Definition writeln (str : string) : prog unit :=
  Call (Printf ("%s" ++ nl) [VaStr str]) (fun _ => Ret tt).

(** [void writef(double x) { printf("%g", x); }] *)
Definition writef (x : double) : prog unit :=
  Call (Printf "%g" [VaDouble x]) (fun _ => Ret tt).


(** [void writelnf(double x)]: the format is [%g] and a newline. *)
Definition writelnf (x : double) : prog unit :=
  Call (Printf ("%g" ++ nl) [VaDouble x]) (fun _ => Ret tt).


Section Shim.

(** The width of [size_t], and the [<math.h>] functions the macro wraps. *)
Variable size_t_bits : Z.
Variables sin cos sqrt exp round : double -> double.

(** The [int] argument converted to [size_t] at the call of [malloc]. *)
Definition size_t_of_int (n : Z) : Z := n mod 2 ^ size_t_bits.

(** [new] returns [malloc(size)], the result cast from a pointer to void
    to a pointer to [int]: the same address. *)
Definition new (size : Z) : prog pointer :=
  Call (Malloc (size_t_of_int size)) (fun p => Ret p).

(** [#define FUNC32(a) a##32(float f) { return a((double) f); }]: the
    argument is widened, [a] is called, and [ret] is the conversion of the
    [return] statement to the declared result type. *)
Definition FUNC32 {A B : Type} (a : double -> A) (ret : A -> B) (f : float) : B :=
  ret (a (double_of_float f)).

(** [float FUNC32(sin)] and the like. *)
Definition sin32 : float -> float := FUNC32 sin float_of_double.
Definition cos32 : float -> float := FUNC32 cos float_of_double.
Definition sqrt32 : float -> float := FUNC32 sqrt float_of_double.
Definition exp32 : float -> float := FUNC32 exp float_of_double.
Definition round32 : float -> float := FUNC32 round float_of_double.

(** [float FUNC32(iround)]: the [int] is converted to [float]. *)
Definition iround32 : float -> option float := FUNC32 iround (option_map float_of_int).

(** [void FUNC32(writef)] and [void FUNC32(writelnf)]: nothing to convert. *)
Definition writef32 : float -> prog unit := FUNC32 writef (fun p => p).
Definition writelnf32 : float -> prog unit := FUNC32 writelnf (fun p => p).

End Shim.

(** * Properties *)

(** ** Bits, shifts and digits *)

Lemma digits2_pos_size (p : positive) : digits2_pos p = Pos.size p.
Proof. induction p; simpl; congruence. Qed.

Lemma Zdigits2_log2 (p : positive) : Zpos (digits2_pos p) = Z.log2 (Zpos p) + 1.
Proof.
  rewrite digits2_pos_size.
  destruct p; simpl; rewrite ?Pos.add_1_r; reflexivity.
Qed.

Lemma digits2_pos_bounds (p : positive) :
  2 ^ (Zpos (digits2_pos p) - 1) <= Zpos p < 2 ^ Zpos (digits2_pos p).
Proof.
  rewrite Zdigits2_log2.
  replace (Z.log2 (Zpos p) + 1 - 1) with (Z.log2 (Zpos p)) by lia.
  pose proof (Z.log2_spec (Zpos p) ltac:(lia)).
  replace (Z.log2 (Z.pos p) + 1) with (Z.succ (Z.log2 (Zpos p))) by lia. exact H.
Qed.

Lemma digits2_pos_unique (p : positive) (d : Z) :
  2 ^ (d - 1) <= Zpos p < 2 ^ d -> Zpos (digits2_pos p) = d.
Proof.
  intros H. rewrite Zdigits2_log2.
  assert (0 < d).
  { destruct (Z.ltb_spec 0 d); auto. rewrite (Z.pow_neg_r 2 (d - 1)) in H by lia.
    assert (2 ^ d <= 1); [|lia].
    destruct (Z.eq_dec d 0); subst; simpl; try lia. rewrite Z.pow_neg_r; lia. }
  rewrite (Z.log2_unique (Zpos p) (d - 1)); try lia.
  replace (Z.succ (d - 1)) with d by lia. exact H.
Qed.

Lemma Pos_iter_xO (m d : positive) : Zpos (Pos.iter xO m d) = Zpos m * 2 ^ Zpos d.
Proof.
  rewrite <- Z.shiftl_mul_pow2 by lia. simpl.
  apply (Pos.iter_swap_gen _ _ Zpos xO (Z.mul 2)). reflexivity.
Qed.

Lemma iter_pos_nat {A} (f : A -> A) (p : positive) (x : A) :
  iter_pos f p x = Nat.iter (Pos.to_nat p) f x.
Proof.
  revert x. induction p; intros x; cbn [iter_pos].
  - rewrite !IHp. rewrite Pos2Nat.inj_xI.
    replace (S (2 * Pos.to_nat p)) with (Pos.to_nat p + (Pos.to_nat p + 1))%nat by lia.
    rewrite !Nat.iter_add. reflexivity.
  - rewrite !IHp, Pos2Nat.inj_xO.
    replace (2 * Pos.to_nat p)%nat with (Pos.to_nat p + Pos.to_nat p)%nat by lia.
    rewrite Nat.iter_add. reflexivity.
  - reflexivity.
Qed.

Lemma shr_1_nonneg (m : Z) (r s : bool) : 0 <= m ->
  shr_1 (Build_shr_record m r s) = Build_shr_record (m / 2) (Z.odd m) (r || s).
Proof.
  intros Hm. destruct m as [|p|p]; try lia.
  - reflexivity.
  - destruct p; unfold shr_1.
    + f_equal. rewrite Pos2Z.inj_xI. apply Z.div_unique with 1; lia.
    + f_equal. rewrite Pos2Z.inj_xO. apply Z.div_unique with 0; lia.
    + reflexivity.
Qed.

(** [k + 1] right shifts leave the quotient by [2^(k+1)], the last bit
    shifted out as round bit, and whether any bit below it was set. *)
Lemma iter_shr_1 (M : Z) (k : nat) : 0 <= M ->
  Nat.iter (S k) shr_1 (Build_shr_record M false false) =
  Build_shr_record (M / 2 ^ (Z.of_nat k + 1)) (Z.odd (M / 2 ^ Z.of_nat k))
                   (negb (M mod 2 ^ Z.of_nat k =? 0)).
Proof.
  intros HM. induction k.
  - change (Nat.iter 1 shr_1 ?x) with (shr_1 x). rewrite shr_1_nonneg by lia. simpl Z.of_nat.
    rewrite Z.pow_0_r, Z.div_1_r, Z.mod_1_r. reflexivity.
  - change (Nat.iter (S (S k)) shr_1 ?x) with (shr_1 (Nat.iter (S k) shr_1 x)).
    rewrite IHk.
    assert (Hp : 0 < 2 ^ Z.of_nat k) by (apply Z.pow_pos_nonneg; lia).
    assert (Hp1 : 2 ^ (Z.of_nat k + 1) = 2 ^ Z.of_nat k * 2) by (rewrite Z.pow_add_r; lia).
    rewrite shr_1_nonneg by (apply Z.div_pos; lia).
    rewrite Nat2Z.inj_succ. unfold Z.succ.
    f_equal.
    + rewrite (Z.pow_add_r 2 (Z.of_nat k + 1) 1) by lia.
      rewrite Z.div_div by lia. reflexivity.
    + rewrite Hp1, Z.rem_mul_r by lia.
      pose proof (Z.mod_pos_bound M (2 ^ Z.of_nat k) Hp).
      rewrite (Zmod_odd (M / 2 ^ Z.of_nat k)).
      destruct (Z.odd (M / 2 ^ Z.of_nat k)); simpl.
      * symmetry; apply negb_true_iff, Z.eqb_neq. lia.
      * f_equal. f_equal. lia.
Qed.

(** ** [binary_round] is [round_spec] *)

Section Rounding.
Variables prec emax : Z.
Hypothesis Hprec : 0 < prec.

Lemma round_nearest_even_shr (q : Z) (r s : bool) :
  round_nearest_even q (loc_of_shr_record (Build_shr_record q r s)) = round_even q r s.
Proof.
  unfold round_even. destruct r, s; simpl; try reflexivity.
  rewrite <- Z.negb_even. destruct (Z.even q); reflexivity.
Qed.

Lemma fexp_ge_emin k : emin prec emax <= fexp prec emax k.
Proof. unfold fexp. lia. Qed.

Lemma shr_exact_noshift (m e : Z) :
  fexp prec emax (Zdigits2 m + e) <= e ->
  shr_fexp prec emax m e loc_Exact = (Build_shr_record m false false, e).
Proof.
  intros H. unfold shr_fexp, shr. simpl shr_record_of_loc.
  destruct (fexp prec emax (Zdigits2 m + e) - e) eqn:E; try reflexivity. lia.
Qed.

Lemma shr_exact_shift (M : positive) (e n : Z) :
  0 < n ->
  shr (Build_shr_record (Zpos M) false false) e n =
  (Build_shr_record (Zpos M / 2 ^ n) (Z.odd (Zpos M / 2 ^ (n - 1)))
     (negb (Zpos M mod 2 ^ (n - 1) =? 0)), e + n).
Proof.
  intros Hn. destruct n as [|p|p]; try lia.
  unfold shr. rewrite iter_pos_nat.
  destruct (Pos.to_nat p) as [|k] eqn:E; [lia|].
  rewrite iter_shr_1 by lia.
  assert (Zpos p = Z.of_nat k + 1) by lia.
  rewrite H. replace (Z.of_nat k + 1 - 1) with (Z.of_nat k) by lia. reflexivity.
Qed.

Lemma binary_round_aux_noshift (s : bool) (M : positive) (e : Z) :
  fexp prec emax (Zpos (digits2_pos M) + e) <= e ->
  binary_round_aux prec emax s (Zpos M) e loc_Exact = fin_or_inf prec emax s (Zpos M) e.
Proof.
  intros H. unfold binary_round_aux.
  rewrite shr_exact_noshift by exact H.
  cbn [shr_m loc_of_shr_record round_nearest_even].
  rewrite shr_exact_noshift by exact H. reflexivity.
Qed.

Lemma Zdigits2_nonneg_le (q d : Z) : 0 <= d -> 0 <= q < 2 ^ d -> Zdigits2 q <= d.
Proof.
  intros Hd [H0 H1]. destruct q as [|p|p]; cbn [Zdigits2]; try lia.
  pose proof (digits2_pos_bounds p) as [Hb _].
  destruct (Z.le_gt_cases (Zpos (digits2_pos p)) d); auto.
  assert (2 ^ d <= 2 ^ (Zpos (digits2_pos p) - 1)) by (apply Z.pow_le_mono_r; lia).
  lia.
Qed.

Lemma binary_round_aux_shift (s : bool) (M : positive) (e : Z) :
  e < fexp prec emax (Zpos (digits2_pos M) + e) ->
  binary_round_aux prec emax s (Zpos M) e loc_Exact = round_spec prec emax s (Zpos M) e.
Proof.
  intros H. unfold round_spec. cbn [Zdigits2].
  set (e0 := fexp prec emax (Zpos (digits2_pos M) + e)) in *.
  destruct (Z.leb_spec e0 e) as [?|_]; [lia|].
  set (n := e0 - e). assert (Hn : 0 < n) by (unfold n; lia).
  unfold binary_round_aux, shr_fexp at 1. cbn [Zdigits2 shr_record_of_loc].
  fold e0. fold n. rewrite shr_exact_shift by exact Hn.
  cbn [shr_m]. rewrite round_nearest_even_shr.
  replace (e + n) with e0 by (unfold n; lia).
  set (q := Zpos M / 2 ^ n).
  set (q' := round_even q _ _).
  (* size of the truncated mantissa *)
  assert (Hq : 0 <= q < 2 ^ prec).
  { pose proof (digits2_pos_bounds M) as [_ Hd].
    assert (Hpn : 0 < 2 ^ n) by (apply Z.pow_pos_nonneg; lia).
    split; [apply Z.div_pos; lia|].
    apply Z.div_lt_upper_bound; [lia|].
    rewrite <- Z.pow_add_r by lia.
    eapply Z.lt_le_trans; [exact Hd|]. apply Z.pow_le_mono_r; [lia|].
    unfold n, e0, fexp. lia. }
  assert (Hq' : q' = q \/ q' = q + 1).
  { unfold q', round_even. destruct (_ && _); auto. }
  assert (Hemin : emin prec emax <= e0) by apply fexp_ge_emin.
  destruct (Z.eqb_spec q' (2 ^ prec)) as [Ecarry|Ecarry].
  - (* the mantissa overflowed to 2^prec: one more shift *)
    rewrite Ecarry.
    assert (Hpp : 0 < 2 ^ prec) by (apply Z.pow_pos_nonneg; lia).
    destruct (2 ^ prec) as [|pp|pp] eqn:Epp; try lia.
    assert (Hdig : Zpos (digits2_pos pp) = prec + 1).
    { apply digits2_pos_unique. rewrite <- Epp.
      replace (prec + 1 - 1) with prec by lia. split; [lia|].
      apply Z.pow_lt_mono_r; lia. }
    unfold shr_fexp. cbn [Zdigits2 shr_record_of_loc]. rewrite Hdig.
    replace (fexp prec emax (prec + 1 + e0) - e0) with 1 by (unfold fexp; lia).
    rewrite shr_exact_shift by lia. cbn [shr_m].
    rewrite <- Epp. change (2 ^ 1) with 2.
    replace (2 ^ prec / 2) with (2 ^ (prec - 1)).
    2:{ replace prec with (prec - 1 + 1) at 2 by lia.
        rewrite Z.pow_add_r by lia. change (2 ^ 1) with 2.
        rewrite Z.div_mul by lia. reflexivity. }
    unfold fin_or_inf. reflexivity.
  - rewrite shr_exact_noshift.
    + cbn [shr_m]. unfold fin_or_inf. reflexivity.
    + assert (Zdigits2 q' <= prec) by (apply Zdigits2_nonneg_le; lia).
      unfold fexp. lia.
Qed.

Lemma Zdigits2_shl (M : positive) (k : Z) : 0 <= k ->
  Zdigits2 (Zpos M * 2 ^ k) = Zpos (digits2_pos M) + k.
Proof.
  intros Hk. assert (Hp : 0 < 2 ^ k) by (apply Z.pow_pos_nonneg; lia).
  destruct (Zpos M * 2 ^ k) as [|p|p] eqn:E; try lia.
  cbn [Zdigits2]. apply digits2_pos_unique. rewrite <- E.
  pose proof (digits2_pos_bounds M) as [Hl Hu].
  replace (Zpos (digits2_pos M) + k - 1) with (Zpos (digits2_pos M) - 1 + k) by lia.
  assert (0 < Zpos (digits2_pos M)) by lia.
  rewrite !Z.pow_add_r by lia. split.
  - apply Z.mul_le_mono_nonneg_r; lia.
  - apply Z.mul_lt_mono_pos_r; lia.
Qed.

(** The Standard Library's rounding, shift by shift, is [round_spec]. *)
Theorem binary_round_correct (s : bool) (M : positive) (e : Z) :
  binary_round prec emax s M e = round_spec prec emax s (Zpos M) e.
Proof.
  unfold binary_round, shl_align.
  set (e0 := fexp prec emax (Zpos (digits2_pos M) + e)).
  destruct (e0 - e) as [|d|d] eqn:E.
  - rewrite binary_round_aux_noshift by (fold e0; lia).
    unfold round_spec. cbn [Zdigits2]. fold e0.
    destruct (Z.leb_spec e0 e); [|lia].
    replace (e - e0) with 0 by lia. rewrite Z.mul_1_r.
    replace e0 with e by lia. reflexivity.
  - rewrite binary_round_aux_shift by (fold e0; lia). reflexivity.
  - assert (Hk : e - e0 = Zpos d) by lia.
    pose proof (Zdigits2_shl M (Zpos d) ltac:(lia)) as Hd.
    rewrite <- Pos_iter_xO in Hd. cbn [Zdigits2] in Hd.
    rewrite binary_round_aux_noshift.
    + unfold round_spec. cbn [Zdigits2]. fold e0.
      destruct (Z.leb_spec e0 e); [|lia].
      rewrite Hk, Pos_iter_xO. reflexivity.
    + rewrite Hd. replace (Zpos (digits2_pos M) + Zpos d + e0)
        with (Zpos (digits2_pos M) + e) by lia. fold e0. lia.
Qed.

End Rounding.

(** ** The adjusted value of [iround] *)

Lemma iround_adjusted (x : double) : iround x = int_of_double (iround_adjust x).
Proof. unfold iround, iround_adjust. destruct (SFge x d_zero); reflexivity. Qed.

Lemma shl_align_value (m : positive) (e ez : Z) : ez <= e ->
  Zpos (fst (shl_align m e ez)) = Zpos m * 2 ^ (e - ez).
Proof.
  intros H. unfold shl_align. destruct (ez - e) as [|d|d] eqn:E; cbn [fst]; try lia.
  - replace (e - ez) with 0 by lia. lia.
  - rewrite Pos_iter_xO. f_equal. f_equal. lia.
Qed.

Lemma binary_normalize_nonzero prec emax (Hp : 0 < prec) (s sz : bool) (M : Z) (e : Z) :
  0 < M ->
  binary_normalize prec emax (cond_Zopp s M) e sz = round_spec prec emax s M e.
Proof.
  intros HM. destruct M as [|p|p]; try lia.
  destruct s; cbn [cond_Zopp Z.opp binary_normalize]; apply binary_round_correct; exact Hp.
Qed.

(** The adjusted value of a finite non-zero [x], as one rounding of the
    exact sum of magnitudes. *)
Lemma iround_adjust_finite (s : bool) (m : positive) (e : Z) :
  let ez := Z.min e (-53) in
  iround_adjust (S754_finite s m e) =
  round_spec 53 1024 s (Zpos m * 2 ^ (e - ez) + 2 ^ 52 * 2 ^ (-53 - ez)) ez.
Proof.
  intros ez.
  assert (H1 := shl_align_value m e ez ltac:(unfold ez; lia)).
  assert (H2 := shl_align_value 4503599627370496 (-53) ez ltac:(unfold ez; lia)).
  change (Zpos 4503599627370496) with (2 ^ 52) in H2.
  rewrite <- H1, <- H2.
  rewrite <- (binary_normalize_nonzero 53 1024 ltac:(lia) s false) by lia.
  unfold iround_adjust, SFge, d_zero, d_half.
  destruct s; cbn [SFleb SFcompare SFadd SFsub cond_Zopp]; fold ez; f_equal.
Qed.

Lemma div_between (a b k : Z) : 0 < b -> b * k <= a < b * (k + 1) -> a / b = k.
Proof.
  intros Hb [H1 H2]. symmetry. apply Z.div_unique with (a - b * k); lia.
Qed.

Lemma Zdigits2_unique (M d : Z) : 0 < M -> 2 ^ (d - 1) <= M < 2 ^ d -> Zdigits2 M = d.
Proof.
  intros HM H. destruct M as [|p|p]; try lia. apply digits2_pos_unique, H.
Qed.

Lemma bounded_double (m : positive) (e : Z) :
  bounded 53 1024 m e = true ->
  -1074 <= e <= 971 /\ Zpos m < 2 ^ 53 /\ (-1074 < e -> 2 ^ 52 <= Zpos m).
Proof.
  unfold bounded, canonical_mantissa, fexp, emin. intros H.
  apply andb_true_iff in H as [H1 H2]. apply Z.eqb_eq in H1. apply Z.leb_le in H2.
  pose proof (digits2_pos_bounds m) as [Hl Hu].
  assert (Hd : Zpos (digits2_pos m) <= 53) by lia.
  split; [lia|]. split.
  - eapply Z.lt_le_trans; [exact Hu|]. apply Z.pow_le_mono_r; lia.
  - intros He. assert (Zpos (digits2_pos m) = 53) as E by lia.
    rewrite E in Hl. exact Hl.
Qed.

Lemma fin_or_inf_pos prec emax s q e : 0 < q -> e <= emax - prec ->
  fin_or_inf prec emax s q e = S754_finite s (Z.to_pos q) e.
Proof.
  intros Hq He. destruct q as [|p|p]; try lia. cbn [fin_or_inf Z.to_pos].
  destruct (Z.leb_spec e (emax - prec)); [reflexivity|lia].
Qed.

Lemma round_even_bounds q r s : q <= round_even q r s <= q + 1.
Proof. unfold round_even. destruct (_ && _); lia. Qed.

(** Below one half: the sum [x + 0.5] is rounded at 2^-53. *)
Lemma trunc_adjust_small (s : bool) (m : positive) (e : Z) :
  -1074 <= e < -53 -> Zpos m < 2 ^ 53 ->
  ~ (Zpos m = 2 ^ 53 - 1 /\ e = -54) ->
  SFtrunc (round_spec 53 1024 s (Zpos m * 2 ^ (e - e) + 2 ^ 52 * 2 ^ (-53 - e)) e)
  = Some (cond_Zopp s 0).
Proof.
  intros He Hm Hne.
  set (n := -53 - e). assert (Hn : 1 <= n) by (unfold n; lia).
  assert (Hpn : 2 <= 2 ^ n).
  { change 2 with (2 ^ 1) at 1. apply Z.pow_le_mono_r; lia. }
  replace (e - e) with 0 by lia. rewrite Z.pow_0_r, Z.mul_1_r.
  set (M := Zpos m + 2 ^ 52 * 2 ^ n).
  assert (HM : 2 ^ (53 + n - 1) <= M < 2 ^ (53 + n)).
  { replace (53 + n - 1) with (52 + n) by lia. rewrite !Z.pow_add_r by lia.
    unfold M. change (2 ^ 53) with (2 ^ 52 * 2) in *. nia. }
  assert (HM0 : 0 < M) by (unfold M; nia).
  unfold round_spec. rewrite (Zdigits2_unique M (53 + n)) by assumption.
  replace (53 + n + e) with 0 by (unfold n; lia).
  change (fexp 53 1024 0) with (-53).
  destruct (Z.leb_spec (-53) e) as [?|_]; [lia|]. fold n.
  assert (Hq : M / 2 ^ n = Zpos m / 2 ^ n + 2 ^ 52).
  { unfold M. rewrite Z.div_add by lia. reflexivity. }
  set (q' := round_even _ _ _).
  assert (Hq' : 2 ^ 52 <= q' < 2 ^ 53).
  { pose proof (round_even_bounds (M / 2 ^ n) (Z.odd (M / 2 ^ (n - 1)))
                  (negb (M mod 2 ^ (n - 1) =? 0))) as Hb. fold q' in Hb.
    rewrite Hq in Hb.
    assert (0 <= Zpos m / 2 ^ n) by (apply Z.div_pos; lia).
    split; [lia|].
    destruct (Z.eq_dec n 1) as [E1|E1].
    - (* e = -54 *)
      unfold q', round_even. rewrite Hq, E1.
      change (2 ^ (1 - 1)) with 1. rewrite Z.div_1_r.
      change (2 ^ 1) with 2 in *.
      assert (Hodd : Z.odd M = Z.odd (Zpos m)).
      { unfold M. rewrite E1. change (2 ^ 52 * 2 ^ 1) with (2 * 2 ^ 52).
        rewrite Z.odd_add_mul_2. reflexivity. }
      rewrite Hodd.
      assert (Zpos m / 2 <= 2 ^ 52 - 1) by (apply Z.div_le_upper_bound; lia).
      destruct (Z.odd (Zpos m)) eqn:Em; cbn [andb]; [|lia].
      destruct (_ || _); [|lia].
      assert (Zpos m / 2 <> 2 ^ 52 - 1); [|lia].
      intros Eq. apply Hne. split; [|unfold n in E1; lia].
      rewrite (Z.div_mod (Zpos m) 2) by lia. rewrite Zmod_odd, Em, Eq. reflexivity.
    - assert (4 <= 2 ^ n).
      { change 4 with (2 ^ 2). apply Z.pow_le_mono_r; lia. }
      assert (Zpos m / 2 ^ n < 2 ^ 51); [|lia].
      apply Z.div_lt_upper_bound; [lia|]. change (2 ^ 53) with (4 * 2 ^ 51) in Hm. nia. }
  destruct (Z.eqb_spec q' (2 ^ 53)) as [?|_]; [lia|].
  rewrite fin_or_inf_pos by lia. cbn [SFtrunc].
  destruct (Z.leb_spec 0 (-53)) as [?|_]; [lia|].
  rewrite Z2Pos.id by lia. change (2 ^ (- -53)) with (2 ^ 53).
  rewrite Z.div_small by lia. reflexivity.
Qed.

(** From one half up to the [int] range: the sum is a multiple of the unit
    in the last place of [x]; either it has 53 bits and is exact, or it has
    54 bits and then lies within half a unit above the integer [2^j]. *)
Lemma trunc_adjust_large (s : bool) (m : positive) (e : Z) :
  -53 <= e <= -21 -> 2 ^ 52 <= Zpos m < 2 ^ 53 ->
  SFtrunc (round_spec 53 1024 s (Zpos m * 2 ^ (e - -53) + 2 ^ 52 * 2 ^ (-53 - -53)) (-53))
  = Some (cond_Zopp s ((2 * Zpos m + 2 ^ (- e)) / 2 ^ (1 - e))).
Proof.
  intros He Hm.
  set (j := e + 53). assert (Hj : 0 <= j <= 32) by (unfold j; lia).
  replace (e - -53) with j by (unfold j; lia).
  replace (-53 - -53) with 0 by lia. rewrite Z.pow_0_r, Z.mul_1_r.
  replace (- e) with (53 - j) by (unfold j; lia).
  replace (1 - e) with (1 + (53 - j)) by (unfold j; lia).
  set (P := 2 ^ j). set (R := 2 ^ (52 - j)).
  assert (HP : 1 <= P) by (unfold P; pose proof (Z.pow_pos_nonneg 2 j); lia).
  assert (HR : 2 ^ 20 <= R) by (unfold R; apply Z.pow_le_mono_r; lia).
  assert (HPR : P * R = 2 ^ 52).
  { unfold P, R. rewrite <- Z.pow_add_r by lia. f_equal. lia. }
  assert (HR2 : 2 ^ (53 - j) = 2 * R).
  { unfold R. replace (53 - j) with (1 + (52 - j)) by lia.
    rewrite Z.pow_add_r by lia. reflexivity. }
  set (u := Zpos m + R).
  assert (HM : Zpos m * P + 2 ^ 52 = u * P) by (unfold u; lia).
  assert (Hmag : (2 * Zpos m + 2 ^ (53 - j)) / 2 ^ (1 + (53 - j)) = u / (2 * R)).
  { rewrite (Z.pow_add_r 2 1) by lia. rewrite HR2. change (2 ^ 1) with 2.
    replace (2 * Zpos m + 2 * R) with (2 * u) by (unfold u; lia).
    apply Z.div_mul_cancel_l; lia. }
  rewrite HM, Hmag.
  assert (Hu0 : 0 < u * P) by nia.
  unfold round_spec.
  destruct (Z.lt_ge_cases u (2 ^ 53)) as [Hu|Hu].
  - (* the sum has 53 bits: it is exact *)
    assert (Hj1 : 1 <= j).
    { destruct (Z.eq_dec j 0) as [E|E]; [|lia].
      unfold u, R in Hu. rewrite E in Hu. change (2 ^ (52 - 0)) with (2 ^ 52) in Hu. lia. }
    rewrite (Zdigits2_unique (u * P) (53 + j)); [|lia|].
    2:{ replace (53 + j - 1) with (52 + j) by lia. rewrite !Z.pow_add_r by lia.
        fold P. unfold u in *. nia. }
    replace (fexp 53 1024 (53 + j + -53)) with (j - 53) by (unfold fexp, emin; lia).
    destruct (Z.leb_spec (j - 53) (-53)) as [?|_]; [lia|].
    replace (j - 53 - -53) with j by lia. fold P.
    rewrite Z.div_mul by lia.
    assert (Hrb : Z.odd (u * P / 2 ^ (j - 1)) = false).
    { unfold P. replace j with (1 + (j - 1)) at 1 by lia.
      rewrite Z.pow_add_r by lia. rewrite Z.mul_assoc, Z.div_mul.
      - rewrite Z.odd_mul. change (Z.odd (2 ^ 1)) with false. apply andb_false_r.
      - pose proof (Z.pow_pos_nonneg 2 (j - 1)); lia. }
    rewrite Hrb. unfold round_even. cbn [andb].
    destruct (Z.eqb_spec u (2 ^ 53)) as [?|_]; [lia|].
    rewrite fin_or_inf_pos by (unfold u; lia). cbn [SFtrunc].
    destruct (Z.leb_spec 0 (j - 53)) as [?|_]; [lia|].
    rewrite Z2Pos.id by (unfold u; lia).
    replace (- (j - 53)) with (53 - j) by lia. rewrite HR2. reflexivity.
  - (* the sum has 54 bits: it lies in [2^j, 2^j + 1/2) *)
    assert (HuR : u < 2 ^ 53 + R) by (unfold u; lia).
    rewrite (Zdigits2_unique (u * P) (54 + j)); [|lia|].
    2:{ replace (54 + j - 1) with (53 + j) by lia. rewrite !Z.pow_add_r by lia.
        fold P. change (2 ^ 54) with (2 * 2 ^ 53). change (2 ^ 53) with (2 * 2 ^ 52) in *. nia. }
    replace (fexp 53 1024 (54 + j + -53)) with (j - 52) by (unfold fexp, emin; lia).
    destruct (Z.leb_spec (j - 52) (-53)) as [?|_]; [lia|].
    replace (j - 52 - -53) with (j + 1) by lia.
    set (q' := round_even _ _ _).
    assert (Hq' : 2 ^ 52 <= q' < 2 ^ 52 + R).
    { pose proof (round_even_bounds (u * P / 2 ^ (j + 1))
         (Z.odd (u * P / 2 ^ (j + 1 - 1))) (negb (u * P mod 2 ^ (j + 1 - 1) =? 0))) as Hb.
      fold q' in Hb.
      assert (Hq : u * P / 2 ^ (j + 1) = u / 2).
      { rewrite Z.pow_add_r by lia. fold P. change (2 ^ 1) with 2.
        rewrite <- Z.div_div by lia.
        rewrite Z.div_mul by lia. reflexivity. }
      rewrite Hq in Hb.
      assert (2 ^ 52 <= u / 2) by (apply Z.div_le_lower_bound; lia).
      assert (u / 2 <= 2 ^ 52 + R / 2).
      { apply Z.div_le_upper_bound; [lia|].
        pose proof (Z.mul_succ_div_gt R 2 ltac:(lia)).
        change (2 ^ 53) with (2 * 2 ^ 52) in *. lia. }
      assert (R / 2 + 1 < R).
      { pose proof (Z.mul_div_le R 2 ltac:(lia)). lia. }
      lia. }
    destruct (Z.eqb_spec q' (2 ^ 53)) as [?|_].
    { change (2 ^ 53) with (2 * 2 ^ 52) in *. nia. }
    rewrite fin_or_inf_pos by lia. cbn [SFtrunc].
    destruct (Z.leb_spec 0 (j - 52)) as [?|_]; [lia|].
    rewrite Z2Pos.id by lia.
    replace (- (j - 52)) with (52 - j) by lia. fold R.
    rewrite (div_between q' R P) by nia.
    rewrite (div_between u (2 * R) P); [reflexivity|lia|].
    change (2 ^ 53) with (2 * 2 ^ 52) in *. nia.
Qed.

(** ** Beyond the [int] range *)

Section RoundingRange.
Variables prec emax : Z.
Hypothesis Hprec : 0 < prec.

(** In the normal range the rounded mantissa has [prec] bits and the
    exponent does not go down. *)
Lemma round_spec_normal (s : bool) (M e : Z) :
  0 < M -> emin prec emax <= Zdigits2 M + e - prec ->
  round_spec prec emax s M e = S754_infinity s \/
  exists q e', round_spec prec emax s M e = S754_finite s q e' /\
               2 ^ (prec - 1) <= Zpos q < 2 ^ prec /\ Zdigits2 M + e - prec <= e'.
Proof.
  intros HM Hn. destruct M as [|M|M]; try lia. cbn [Zdigits2] in *.
  pose proof (digits2_pos_bounds M) as [Hl Hu].
  set (d := Zpos (digits2_pos M)) in *.
  assert (Hfin : forall q e', 2 ^ (prec - 1) <= q < 2 ^ prec -> d + e - prec <= e' ->
     fin_or_inf prec emax s q e' = S754_infinity s \/
     exists p e'', fin_or_inf prec emax s q e' = S754_finite s p e'' /\
               2 ^ (prec - 1) <= Zpos p < 2 ^ prec /\ d + e - prec <= e'').
  { intros q e' Hq He'. assert (0 < 2 ^ (prec - 1)) by (apply Z.pow_pos_nonneg; lia).
    destruct q as [|q|q]; try lia. cbn [fin_or_inf].
    destruct (e' <=? emax - prec); [right; exists q, e'; auto|left; reflexivity]. }
  assert (Hpp : 2 ^ prec = 2 * 2 ^ (prec - 1)).
  { replace prec with (1 + (prec - 1)) at 1 by lia. rewrite Z.pow_add_r by lia. reflexivity. }
  unfold round_spec. cbn [Zdigits2]. fold d.
  replace (fexp prec emax (d + e)) with (d + e - prec) by (unfold fexp; lia).
  destruct (Z.leb_spec (d + e - prec) e) as [Hle|Hgt].
  - apply Hfin; [|lia].
    replace (e - (d + e - prec)) with (prec - d) by lia.
    replace (prec - 1) with (d - 1 + (prec - d)) by lia.
    replace prec with (d + (prec - d)) at 4 by lia.
    rewrite !Z.pow_add_r by lia.
    assert (0 < 2 ^ (prec - d)) by (apply Z.pow_pos_nonneg; lia).
    split; [apply Z.mul_le_mono_nonneg_r|apply Z.mul_lt_mono_pos_r]; lia.
  - replace (d + e - prec - e) with (d - prec) by lia.
    set (q' := round_even _ _ _).
    assert (Hq : 2 ^ (prec - 1) <= Zpos M / 2 ^ (d - prec) < 2 ^ prec).
    { assert (0 < 2 ^ (d - prec)) by (apply Z.pow_pos_nonneg; lia). split.
      - apply Z.div_le_lower_bound; [lia|]. rewrite <- Z.pow_add_r by lia.
        replace (d - prec + (prec - 1)) with (d - 1) by lia. exact Hl.
      - apply Z.div_lt_upper_bound; [lia|]. rewrite <- Z.pow_add_r by lia.
        replace (d - prec + prec) with d by lia. exact Hu. }
    pose proof (round_even_bounds (Zpos M / 2 ^ (d - prec))
        (Z.odd (Zpos M / 2 ^ (d - prec - 1))) (negb (Zpos M mod 2 ^ (d - prec - 1) =? 0))) as Hb.
    fold q' in Hb.
    assert (0 < 2 ^ (prec - 1)) by (apply Z.pow_pos_nonneg; lia).
    destruct (Z.eqb_spec q' (2 ^ prec)).
    + apply Hfin; lia.
    + apply Hfin; lia.
Qed.

End RoundingRange.

Lemma in_int_range_huge (s : bool) (t : Z) : 2 ^ 32 <= t -> in_int_range (cond_Zopp s t) = false.
Proof.
  intros Ht. unfold in_int_range, INT_MIN, INT_MAX. destruct s; cbn [cond_Zopp].
  - destruct (Z.leb_spec (- 2 ^ 31) (- t)); [lia|reflexivity].
  - destruct (Z.leb_spec t (2 ^ 31 - 1)); [lia|]. apply andb_false_r.
Qed.

Lemma int_of_double_huge (s : bool) (q : positive) (e : Z) :
  2 ^ 52 <= Zpos q -> -20 <= e -> int_of_double (S754_finite s q e) = None.
Proof.
  intros Hq He. unfold int_of_double. cbn [SFtrunc].
  set (t := if 0 <=? e then _ else _).
  assert (Ht : 2 ^ 32 <= t).
  { unfold t. destruct (Z.leb_spec 0 e).
    - assert (1 <= 2 ^ e) by (pose proof (Z.pow_pos_nonneg 2 e); lia).
      change (2 ^ 32) with (2 ^ 32 * 1). apply Z.mul_le_mono_nonneg; lia.
    - assert (0 < 2 ^ (- e)) by (apply Z.pow_pos_nonneg; lia).
      assert (2 ^ (- e) <= 2 ^ 20) by (apply Z.pow_le_mono_r; lia).
      apply Z.div_le_lower_bound; [lia|]. change (2 ^ 52) with (2 ^ 20 * 2 ^ 32) in Hq. nia. }
  unfold checked_int. rewrite in_int_range_huge by exact Ht. reflexivity.
Qed.

Lemma nearest_away_mag_huge (m : positive) (e : Z) :
  2 ^ 52 <= Zpos m -> -20 <= e -> 2 ^ 32 <= nearest_away_mag m e.
Proof.
  intros Hq He. unfold nearest_away_mag. destruct (Z.leb_spec 0 e).
  - assert (1 <= 2 ^ e) by (pose proof (Z.pow_pos_nonneg 2 e); lia).
    change (2 ^ 32) with (2 ^ 32 * 1). apply Z.mul_le_mono_nonneg; lia.
  - assert (0 < 2 ^ (- e)) by (apply Z.pow_pos_nonneg; lia).
    assert (0 < 2 ^ (1 - e)) by (apply Z.pow_pos_nonneg; lia).
    assert (2 ^ (1 - e) <= 2 ^ 21) by (apply Z.pow_le_mono_r; lia).
    apply Z.div_le_lower_bound; [lia|]. change (2 ^ 52) with (2 ^ 20 * 2 ^ 32) in Hq.
    change (2 ^ 21) with (2 * 2 ^ 20) in *. nia.
Qed.

(** From 2^32 on the adjusted value is no [int]. *)
Lemma iround_huge (s : bool) (m : positive) (e : Z) :
  2 ^ 52 <= Zpos m < 2 ^ 53 -> -20 <= e -> iround (S754_finite s m e) = None.
Proof.
  intros Hm He. rewrite iround_adjusted, iround_adjust_finite.
  replace (Z.min e (-53)) with (-53) by lia.
  replace (-53 - -53) with 0 by lia. rewrite Z.pow_0_r, Z.mul_1_r.
  set (j := e - -53). assert (Hj : 33 <= j) by (unfold j; lia).
  set (M := Zpos m * 2 ^ j + 2 ^ 52).
  assert (Hpj : 2 ^ 33 <= 2 ^ j) by (apply Z.pow_le_mono_r; lia).
  assert (HM : 2 ^ (53 + j - 1) <= M).
  { replace (53 + j - 1) with (52 + j) by lia. rewrite Z.pow_add_r by lia. unfold M. nia. }
  assert (HM0 : 0 < M) by (unfold M; nia).
  assert (Hd : 53 + j <= Zdigits2 M).
  { destruct M as [|p|p]; try lia. cbn [Zdigits2].
    pose proof (digits2_pos_bounds p) as [_ Hu].
    destruct (Z.le_gt_cases (53 + j) (Zpos (digits2_pos p))); auto.
    assert (2 ^ Zpos (digits2_pos p) <= 2 ^ (53 + j - 1)) by (apply Z.pow_le_mono_r; lia).
    lia. }
  destruct (round_spec_normal 53 1024 ltac:(lia) s M (-53) HM0) as [E|(q & e' & E & Hq & He')].
  - unfold emin. lia.
  - rewrite E. reflexivity.
  - rewrite E. apply int_of_double_huge; [lia|unfold j in *; lia].
Qed.

(** ** [iround] on every [double] *)

Lemma nearest_away_mag_small (m : positive) (e : Z) :
  e < -53 -> Zpos m < 2 ^ 53 -> nearest_away_mag m e = 0.
Proof.
  intros He Hm. unfold nearest_away_mag.
  destruct (Z.leb_spec 0 e); [lia|].
  assert (H54 : 2 ^ 54 <= 2 ^ (- e)) by (apply Z.pow_le_mono_r; lia).
  replace (1 - e) with (1 + - e) by lia. rewrite Z.pow_add_r by lia.
  change (2 ^ 1) with 2. change (2 ^ 54) with (2 * 2 ^ 53) in H54.
  apply Z.div_small. lia.
Qed.

(** A finite [x]: [iround] returns the nearest integer when it is an
    [int], and has no result otherwise. *)
Lemma iround_finite (s : bool) (m : positive) (e : Z) :
  bounded 53 1024 m e = true ->
  S754_finite false m e <> d_pred_half ->
  iround (S754_finite s m e) = checked_int (cond_Zopp s (nearest_away_mag m e)).
Proof.
  intros Hb Hne. apply bounded_double in Hb as (He & Hm & Hnorm).
  destruct (Z.lt_ge_cases e (-53)) as [Hlo|Hhi].
  - (* |x| < 1/2 *)
    rewrite iround_adjusted, iround_adjust_finite. unfold int_of_double.
    replace (Z.min e (-53)) with e by lia.
    rewrite trunc_adjust_small; [|lia|lia|].
    + rewrite nearest_away_mag_small by lia. reflexivity.
    + intros [Em Ee]. apply Hne. unfold d_pred_half. subst e.
      f_equal. apply Pos2Z.inj. rewrite Em. reflexivity.
  - specialize (Hnorm ltac:(lia)).
    destruct (Z.le_gt_cases e (-21)) as [Hmid|Hbig].
    + rewrite iround_adjusted, iround_adjust_finite. unfold int_of_double.
      replace (Z.min e (-53)) with (-53) by lia.
      rewrite trunc_adjust_large by lia.
      unfold nearest_away_mag. destruct (Z.leb_spec 0 e); [lia|]. reflexivity.
    + rewrite iround_huge by lia. unfold checked_int.
      rewrite in_int_range_huge; [reflexivity|].
      apply nearest_away_mag_huge; lia.
Qed.

Theorem iround_characterised (x : double) :
  valid_double x = true -> SFabs x <> d_pred_half ->
  iround x = match round_half_away x with Some n => checked_int n | None => None end.
Proof.
  intros Hv Hne. destruct x as [s|s| |s m e]; cbn [round_half_away].
  - destruct s; reflexivity.
  - destruct s; reflexivity.
  - reflexivity.
  - apply iround_finite; [exact Hv|exact Hne].
Qed.

Lemma is_nearest_away_unique (x : double) (n : Z) :
  is_nearest_away x n = true -> round_half_away x = Some n.
Proof.
  destruct x as [s|s| |s m e]; cbn [is_nearest_away round_half_away]; try discriminate.
  - intros H. apply Z.eqb_eq in H. congruence.
  - unfold magnitude, nearest_away_mag. destruct (Z.leb_spec 0 e) as [He|He]; intros H;
      apply andb_true_iff in H as [H H3]; apply andb_true_iff in H as [H1 H2];
      apply Z.eqb_eq in H1; apply Z.leb_le in H2; apply Z.ltb_lt in H3;
      rewrite H1; f_equal; f_equal.
    + lia.
    + assert (0 < 2 ^ (- e)) by (apply Z.pow_pos_nonneg; lia).
      replace (1 - e) with (1 + - e) by lia. rewrite Z.pow_add_r by lia. change (2 ^ 1) with 2.
      apply div_between; lia.
Qed.

Lemma nearest_away_mag_nonneg (m : positive) (e : Z) : 0 <= nearest_away_mag m e.
Proof.
  unfold nearest_away_mag. destruct (Z.leb_spec 0 e).
  - pose proof (Z.pow_pos_nonneg 2 e). lia.
  - apply Z.div_pos; [|apply Z.pow_pos_nonneg; lia].
    pose proof (Z.pow_pos_nonneg 2 (- e)). lia.
Qed.

Lemma round_half_away_is_nearest (x : double) (n : Z) :
  round_half_away x = Some n -> is_nearest_away x n = true.
Proof.
  destruct x as [s|s| |s m e]; cbn [is_nearest_away round_half_away]; try discriminate.
  - intros [= <-]. reflexivity.
  - intros [= <-]. pose proof (nearest_away_mag_nonneg m e) as Hk.
    set (k := nearest_away_mag m e) in *.
    assert (Ek : Z.abs (cond_Zopp s k) = k) by (destruct s; cbn [cond_Zopp]; lia).
    rewrite Ek. unfold magnitude.
    assert (Hb : if 0 <=? e then k = Zpos m * 2 ^ e
                 else (2 * k - 1) * 2 ^ (- e) <= 2 * Zpos m < (2 * k + 1) * 2 ^ (- e)).
    { unfold k, nearest_away_mag. destruct (Z.leb_spec 0 e); [reflexivity|].
      assert (0 < 2 ^ (- e)) by (apply Z.pow_pos_nonneg; lia).
      replace (1 - e) with (1 + - e) by lia. rewrite Z.pow_add_r by lia. change (2 ^ 1) with 2.
      pose proof (Z.mul_div_le (2 * Zpos m + 2 ^ (- e)) (2 * 2 ^ (- e)) ltac:(lia)).
      pose proof (Z.mul_succ_div_gt (2 * Zpos m + 2 ^ (- e)) (2 * 2 ^ (- e)) ltac:(lia)).
      lia. }
    destruct (0 <=? e); rewrite Z.eqb_refl; cbn [andb]; apply andb_true_iff;
      (split; [apply Z.leb_le|apply Z.ltb_lt]); lia.
Qed.

(** ** Widening a [float], and an [int] as a [float] *)

Lemma bounded_float (m : positive) (e : Z) :
  bounded 24 128 m e = true ->
  -149 <= e <= 104 /\ Zpos (digits2_pos m) <= 24 /\ (e < 0 -> Zpos m * 2 < 2 ^ 24 * 2 ^ (- e)).
Proof.
  unfold bounded, canonical_mantissa, fexp, emin. intros H.
  apply andb_true_iff in H as [H1 H2]. apply Z.eqb_eq in H1. apply Z.leb_le in H2.
  pose proof (digits2_pos_bounds m) as [Hl Hu].
  assert (Hd : Zpos (digits2_pos m) <= 24) by lia.
  split; [lia|]. split; [exact Hd|].
  intros He. assert (2 ^ Zpos (digits2_pos m) <= 2 ^ 24) by (apply Z.pow_le_mono_r; lia).
  assert (2 ^ 1 <= 2 ^ (- e)) by (apply Z.pow_le_mono_r; lia).
  change (2 ^ 1) with 2 in *. nia.
Qed.

(** Widening is exact: the mantissa is shifted to 53 bits. *)
Lemma double_of_float_finite (s : bool) (m : positive) (e : Z) :
  bounded 24 128 m e = true ->
  let k := 53 - Zpos (digits2_pos m) in
  double_of_float (S754_finite s m e) = S754_finite s (Z.to_pos (Zpos m * 2 ^ k)) (e - k)
  /\ bounded 53 1024 (Z.to_pos (Zpos m * 2 ^ k)) (e - k) = true.
Proof.
  intros Hb k. apply bounded_float in Hb as (He & Hd & _).
  assert (Hk : 29 <= k) by (unfold k; lia).
  assert (Hpk : 0 < 2 ^ k) by (apply Z.pow_pos_nonneg; lia).
  assert (Hdig : Zdigits2 (Zpos m * 2 ^ k) = 53).
  { rewrite Zdigits2_shl by lia. unfold k. lia. }
  split.
  - cbn [double_of_float]. rewrite binary_normalize_nonzero by lia.
    unfold round_spec. cbn [Zdigits2].
    replace (fexp 53 1024 (Zpos (digits2_pos m) + e)) with (e - k)
      by (unfold fexp, emin, k; lia).
    destruct (Z.leb_spec (e - k) e); [|lia].
    replace (e - (e - k)) with k by lia.
    apply fin_or_inf_pos; lia.
  - unfold bounded, canonical_mantissa.
    assert (E : Zpos (digits2_pos (Z.to_pos (Zpos m * 2 ^ k))) = 53).
    { rewrite <- Hdig. destruct (Zpos m * 2 ^ k) eqn:Ez; try lia. reflexivity. }
    rewrite E. apply andb_true_iff. split.
    + apply Z.eqb_eq. unfold fexp, emin. lia.
    + apply Z.leb_le. lia.
Qed.

(** An integer of at most 24 significant bits converts to [float] exactly. *)
Lemma float_of_mag_exact (s : bool) (N : Z) :
  0 < N <= 2 ^ 31 ->
  (Zdigits2 N <= 24 \/ N mod 2 ^ (Zdigits2 N - 24) = 0) ->
  represents_int (float_of_int (cond_Zopp s N)) (cond_Zopp s N) = true.
Proof.
  intros [HN Hr] Hbits.
  unfold float_of_int. rewrite binary_normalize_nonzero by lia.
  assert (Hd : 0 < Zdigits2 N /\ 2 ^ (Zdigits2 N - 1) <= N < 2 ^ Zdigits2 N).
  { destruct N as [|p|p]; try lia. cbn [Zdigits2]. split; [lia|]. apply digits2_pos_bounds. }
  destruct Hd as (Hd0 & Hdl & Hdu).
  set (d := Zdigits2 N) in *.
  assert (Hd32 : d <= 32).
  { destruct (Z.le_gt_cases d 32); auto.
    assert (2 ^ 32 <= 2 ^ (d - 1)) by (apply Z.pow_le_mono_r; lia).
    change (2 ^ 32) with (2 * 2 ^ 31) in *. lia. }
  unfold round_spec. fold d.
  replace (fexp 24 128 (d + 0)) with (d - 24) by (unfold fexp, emin; lia).
  destruct (Z.leb_spec (d - 24) 0) as [Hle|Hgt].
  - (* at most 24 bits: the mantissa is shifted left *)
    replace (0 - (d - 24)) with (24 - d) by lia.
    assert (Hp : 0 < 2 ^ (24 - d)) by (apply Z.pow_pos_nonneg; lia).
    rewrite fin_or_inf_pos by lia. cbn [represents_int].
    rewrite Z2Pos.id by lia.
    destruct (Z.leb_spec 0 (d - 24)).
    + replace (d - 24) with 0 by lia. replace (24 - d) with 0 by lia.
      rewrite !Z.pow_0_r, !Z.mul_1_r. apply Z.eqb_refl.
    + replace (- (d - 24)) with (24 - d) by lia.
      rewrite Z.mod_mul, Z.div_mul by lia. rewrite !Z.eqb_refl. reflexivity.
  - (* more than 24 bits: the dropped bits are zero *)
    destruct Hbits as [?|Hdiv]; [lia|].
    replace (d - 24 - 0) with (d - 24) by lia.
    set (t := d - 24) in *.
    assert (Hpt : 0 < 2 ^ t) by (apply Z.pow_pos_nonneg; lia).
    assert (Hq : N = 2 ^ t * (N / 2 ^ t)).
    { rewrite (Z.div_mod N (2 ^ t)) at 1 by lia. lia. }
    set (q := N / 2 ^ t) in *.
    assert (Hrb : Z.odd (N / 2 ^ (t - 1)) = false).
    { rewrite Hq. replace t with (t - 1 + 1) at 1 by lia.
      rewrite Z.pow_add_r by lia. change (2 ^ 1) with 2.
      assert (0 < 2 ^ (t - 1)) by (apply Z.pow_pos_nonneg; lia).
      replace (2 ^ (t - 1) * 2 * q) with (2 * q * 2 ^ (t - 1)) by lia.
      rewrite Z.div_mul by lia. rewrite Z.odd_mul. reflexivity. }
    rewrite Hrb. unfold round_even. cbn [andb].
    assert (Hqb : 0 < q < 2 ^ 24).
    { split; [nia|].
      apply Z.mul_lt_mono_pos_l with (2 ^ t); [lia|].
      rewrite <- Hq, <- Z.pow_add_r by lia. replace (t + 24) with d by (unfold t; lia). exact Hdu. }
    destruct (Z.eqb_spec q (2 ^ 24)); [lia|].
    rewrite fin_or_inf_pos by lia. cbn [represents_int].
    destruct (Z.leb_spec 0 t); [|lia].
    rewrite Z2Pos.id by lia. apply Z.eqb_eq. f_equal. lia.
Qed.

Lemma float_of_int_exact (n : Z) :
  Z.abs n <= 2 ^ 31 ->
  (Zdigits2 n <= 24 \/ Z.abs n mod 2 ^ (Zdigits2 n - 24) = 0) ->
  represents_int (float_of_int n) n = true.
Proof.
  intros Hr Hbits. destruct n as [|p|p].
  - reflexivity.
  - apply (float_of_mag_exact false (Zpos p)); [lia|exact Hbits].
  - apply (float_of_mag_exact true (Zpos p)); [lia|exact Hbits].
Qed.

(** The nearest integer of a widened [float] has at most 24 significant
    bits: the value is below 2^23, or it is an integer already. *)
Lemma widened_mag_bits (m : positive) (e : Z) :
  bounded 24 128 m e = true ->
  let k := 53 - Zpos (digits2_pos m) in
  let N := nearest_away_mag (Z.to_pos (Zpos m * 2 ^ k)) (e - k) in
  Zdigits2 N <= 24 \/ N mod 2 ^ (Zdigits2 N - 24) = 0.
Proof.
  intros Hb k N. apply bounded_float in Hb as (He & Hd & Hfrac).
  assert (Hk : 29 <= k) by (unfold k; lia).
  assert (Hpk : 0 < 2 ^ k) by (apply Z.pow_pos_nonneg; lia).
  unfold N, nearest_away_mag. rewrite Z2Pos.id by lia. clear N.
  destruct (Z.leb_spec 0 e) as [He0|He0].
  - (* an integer: m * 2^e *)
    assert (EN : (if 0 <=? e - k then Zpos m * 2 ^ k * 2 ^ (e - k)
                  else (2 * (Zpos m * 2 ^ k) + 2 ^ (- (e - k))) / 2 ^ (1 - (e - k)))
                 = Zpos m * 2 ^ e).
    { destruct (Z.leb_spec 0 (e - k)).
      - rewrite <- Z.mul_assoc, <- Z.pow_add_r by lia. f_equal. f_equal. lia.
      - replace (- (e - k)) with (k - e) by lia. replace (1 - (e - k)) with (1 + (k - e)) by lia.
        rewrite Z.pow_add_r by lia. change (2 ^ 1) with 2.
        assert (0 < 2 ^ (k - e)) by (apply Z.pow_pos_nonneg; lia).
        assert (Ek : 2 ^ k = 2 ^ e * 2 ^ (k - e)).
        { rewrite <- Z.pow_add_r by lia. f_equal. lia. }
        rewrite Ek.
        apply div_between; [lia|]. nia. }
    rewrite EN. rewrite Zdigits2_shl by lia.
    destruct (Z.le_gt_cases (Zpos (digits2_pos m) + e) 24) as [?|Hgt]; [left; assumption|right].
    set (t := Zpos (digits2_pos m) + e - 24).
    replace e with (e - t + t) at 1 by lia.
    rewrite Z.pow_add_r by (unfold t; lia). rewrite Z.mul_assoc.
    apply Z.mod_mul. pose proof (Z.pow_pos_nonneg 2 t). unfold t in *. lia.
  - (* below 2^23 *)
    left. specialize (Hfrac He0).
    destruct (Z.leb_spec 0 (e - k)); [lia|].
    replace (- (e - k)) with (k + - e) by lia. replace (1 - (e - k)) with (1 + (k + - e)) by lia.
    rewrite !Z.pow_add_r by lia. change (2 ^ 1) with 2.
    assert (0 < 2 ^ (- e)) by (apply Z.pow_pos_nonneg; lia).
    apply Zdigits2_nonneg_le; [lia|]. split.
    + apply Z.div_pos; nia.
    + apply Z.div_lt_upper_bound; [nia|]. change (2 ^ 24) with 16777216 in *. nia.
Qed.

Lemma widened_not_pred_half (m : positive) (k e : Z) :
  1 <= k -> S754_finite false (Z.to_pos (Zpos m * 2 ^ k)) e <> d_pred_half.
Proof.
  intros Hk E. unfold d_pred_half in E. injection E as Em _.
  assert (Hpk : 0 < 2 ^ (k - 1)) by (apply Z.pow_pos_nonneg; lia).
  assert (Ev : Z.even (Zpos m * 2 ^ k) = true).
  { replace k with (1 + (k - 1)) by lia. rewrite Z.pow_add_r by lia.
    rewrite Z.even_mul, Z.even_mul. change (Z.even (2 ^ 1)) with true.
    rewrite orb_true_r. reflexivity. }
  assert (Ez : Zpos m * 2 ^ k = Zpos 9007199254740991).
  { rewrite <- Em. rewrite Z2Pos.id; [reflexivity|].
    pose proof (Z.pow_pos_nonneg 2 k). nia. }
  rewrite Ez in Ev. discriminate.
Qed.

Lemma iround32_result_exact (f : float) (y : float) :
  valid_float f = true -> iround32 f = Some y ->
  exists n, iround (double_of_float f) = Some n /\ y = float_of_int n /\
            represents_int y n = true.
Proof.
  intros Hv Hy. unfold iround32, FUNC32 in Hy.
  destruct (iround (double_of_float f)) as [n|] eqn:En; [|discriminate].
  cbn [option_map] in Hy. injection Hy as <-.
  exists n. split; [reflexivity|]. split; [reflexivity|].
  destruct f as [s|s| |s m e].
  - destruct s; vm_compute in En; injection En as <-; reflexivity.
  - destruct s; discriminate En.
  - discriminate En.
  - pose proof (double_of_float_finite s m e Hv) as [Ew Hbw].
    pose proof (widened_mag_bits m e Hv) as Hbits. cbv zeta in Ew, Hbw, Hbits.
    set (k := 53 - Zpos (digits2_pos m)) in *.
    assert (Hk : 29 <= k).
    { apply bounded_float in Hv as (_ & Hd & _). unfold k. lia. }
    rewrite Ew in En. rewrite iround_finite in En; [|exact Hbw|apply widened_not_pred_half; lia].
    unfold checked_int in En.
    destruct (in_int_range _) eqn:Er; [|discriminate]. injection En as <-.
    set (N := nearest_away_mag _ _) in *.
    assert (HN0 : 0 <= N).
    { unfold N, nearest_away_mag. destruct (Z.leb_spec 0 (e - k)).
      - pose proof (Z.pow_nonneg 2 (e - k) ltac:(lia)). nia.
      - apply Z.div_pos; [|apply Z.pow_pos_nonneg; lia].
        pose proof (Z.pow_nonneg 2 (- (e - k)) ltac:(lia)). lia. }
    apply float_of_int_exact.
    + unfold in_int_range, INT_MIN, INT_MAX in Er.
      apply andb_true_iff in Er as [E1 E2]. apply Z.leb_le in E1, E2.
      destruct s; cbn [cond_Zopp] in *; lia.
    + replace (Zdigits2 (cond_Zopp s N)) with (Zdigits2 N)
        by (destruct s, N; reflexivity).
      replace (Z.abs (cond_Zopp s N)) with N by (destruct s; cbn [cond_Zopp]; lia).
      exact Hbits.
Qed.

(** ** Running the output functions *)

Lemma append_empty_r (s : string) : (s ++ "")%string = s.
Proof. induction s as [|c s IH]; cbn; [reflexivity|rewrite IH; reflexivity]. Qed.

Lemma append_assoc (a b c : string) : ((a ++ b) ++ c = a ++ (b ++ c))%string.
Proof. induction a as [|x a IH]; cbn; [reflexivity|rewrite IH; reflexivity]. Qed.

Lemma run_bind (os : platform) {A B : Type} (p : prog A) (f : A -> prog B) (st : pstate os) :
  run os (bind p f) st =
  let '(a, st1, tr1) := run os p st in
  let '(b, st2, tr2) := run os (f a) st1 in
  (b, st2, (tr1 ++ tr2)%list).
Proof.
  revert st. induction p as [a|X c k IH]; intros st; cbn [bind run].
  - destruct (run os (f a) st) as [[b st2] tr2]. reflexivity.
  - destruct (answer os X c st) as [x st1]. rewrite IH.
    destruct (run os (k x) st1) as [[a st2] tr1].
    destruct (run os (f a) st2) as [[b st3] tr2]. reflexivity.
Qed.

Lemma stdout_of_app (tr1 tr2 : list event) :
  stdout_of (tr1 ++ tr2) =
  match stdout_of tr1, stdout_of tr2 with
  | Some a, Some b => Some (a ++ b)%string
  | _, _ => None
  end.
Proof.
  induction tr1 as [|ev tr1 IH]; cbn [app stdout_of].
  - destruct (stdout_of tr2); reflexivity.
  - destruct ev; try exact IH. rewrite IH.
    destruct (vprintf fmt args) as [a|]; [|reflexivity].
    destruct (stdout_of tr1) as [b|]; [|reflexivity].
    destruct (stdout_of tr2) as [c|]; [|reflexivity].
    rewrite append_assoc. reflexivity.
Qed.

(** A body that is one [printf] call leaves that call's text. *)
Lemma run_printf (os : platform) (st : pstate os) (fmt : string) (args : list vararg) :
  trace_of (run os (Call (Printf fmt args) (fun _ => Ret tt)) st) = [Ev_printf fmt args].
Proof.
  cbn [run]. destruct (answer os Z (Printf fmt args) st) as [x st1]. reflexivity.
Qed.

Lemma stdout_of_printf (fmt : string) (args : list vararg) :
  stdout_of [Ev_printf fmt args] = vprintf fmt args.
Proof.
  cbn [stdout_of]. destruct (vprintf fmt args) as [a|]; [|reflexivity].
  rewrite append_empty_r. reflexivity.
Qed.

Lemma vprintf_s (s : string) : vprintf "%s" [VaStr s] = Some s.
Proof. cbn [vprintf option_map]. rewrite append_empty_r. reflexivity. Qed.

Lemma vprintf_s_nl (s : string) : vprintf ("%s" ++ nl) [VaStr s] = Some (s ++ nl)%string.
Proof. reflexivity. Qed.





(** ** The digits of [%g] *)







(** ** The text of [%g], read back *)




























(** * The claims *)

(** C1 (as amended).  For every finite [double] [x] other than
    [0.5 - 2^-54] and its opposite, if the integer [n] nearest to [x], a
    tie going away from zero, is an [int], then [iround x] returns [n];
    and the result is computed as stated, [x + 0.5] when [x >= 0.0] and
    [x - 0.5] otherwise, in [double] arithmetic, then truncated. *)
Theorem iround_nearest_away (x : double) (n : Z) :
  valid_double x = true -> SFabs x <> d_pred_half ->
  is_nearest_away x n = true -> in_int_range n = true ->
  iround x = Some n /\
  iround x = (if SFge x d_zero then int_of_double (SFadd 53 1024 x d_half)
              else int_of_double (SFsub 53 1024 x d_half)).
Proof.
  intros Hv Hne Hn Hr. split; [|reflexivity].
  rewrite iround_characterised by assumption.
  rewrite (is_nearest_away_unique x n Hn). unfold checked_int. rewrite Hr. reflexivity.
Qed.

(** C1, the cases the specification lists: 2.5, -2.5, 2.4, 0.0 (on the
    branch of [x >= 0.0]) and -0.5. *)
Lemma iround_cases :
  iround (double_lit 25 10) = Some 3 /\ iround (double_lit (-25) 10) = Some (-3) /\
  iround (double_lit 24 10) = Some 2 /\
  (SFge d_zero d_zero = true /\ iround d_zero = Some 0) /\
  iround (double_lit (-5) 10) = Some (-1).
Proof.
  split; [|split; [|split; [|split; [split; [reflexivity|]|]]]].
  - apply (iround_nearest_away (double_lit 25 10) 3);
      [reflexivity | vm_compute; discriminate | reflexivity | reflexivity].
  - apply (iround_nearest_away (double_lit (-25) 10) (-3));
      [reflexivity | vm_compute; discriminate | reflexivity | reflexivity].
  - apply (iround_nearest_away (double_lit 24 10) 2);
      [reflexivity | vm_compute; discriminate | reflexivity | reflexivity].
  - apply (iround_nearest_away d_zero 0);
      [reflexivity | vm_compute; discriminate | reflexivity | reflexivity].
  - apply (iround_nearest_away (double_lit (-5) 10) (-1));
      [reflexivity | vm_compute; discriminate | reflexivity | reflexivity].
Defined.

(** C1 as stated fails.  At [0.5 - 2^-54] the nearest integer is 0, and the
    sum with 0.5 rounds to 1.0, so [iround] returns 1; at 3000000000.0 the
    nearest integer is no [int] and [iround] has no result. *)
Lemma iround_not_nearest_everywhere :
  (valid_double d_pred_half = true /\ is_nearest_away d_pred_half 0 = true /\
   iround d_pred_half = Some 1) /\
  (valid_double (double_lit 3000000000 1) = true /\
   is_nearest_away (double_lit 3000000000 1) 3000000000 = true /\
   iround (double_lit 3000000000 1) = None).
Proof. split; (split; [|split]); vm_compute; reflexivity. Qed.

(** C2.  For every [float] [f], each of [sin32], [cos32], [sqrt32],
    [exp32] and [round32] is the [double] function applied to [f] widened,
    its result narrowed to [float]: the wrapper has no arithmetic of its
    own.  With the correctly rounded square root for [sqrt], [sqrt32] of
    2.0f is 1.41421354f, the [double] root narrowed. *)
Theorem func32_math_wrappers (sin cos sqrt exp round : double -> double) (f : float) :
  sin32 sin f = float_of_double (sin (double_of_float f)) /\
  cos32 cos f = float_of_double (cos (double_of_float f)) /\
  sqrt32 sqrt f = float_of_double (sqrt (double_of_float f)) /\
  exp32 exp f = float_of_double (exp (double_of_float f)) /\
  round32 round f = float_of_double (round (double_of_float f)) /\
  sqrt32 (SFsqrt 53 1024) (float_lit 2 1) = S754_finite false 11863283 (-23).
Proof.
  unfold sin32, cos32, sqrt32, exp32, round32, FUNC32.
  do 5 (split; [reflexivity|]).
  vm_compute. reflexivity.
Qed.

(** C3.  On every platform [main] makes one call, to [asm_main], and
    returns its answer, leaving the platform in the state [asm_main] left;
    when [asm_main] answers 7 the exit status is 7. *)
Theorem main_returns_asm_main_status (os : platform) (st : pstate os) :
  run os main st =
    (fst (answer os Z Asm_main st), snd (answer os Z Asm_main st),
     [Ev_asm_main (fst (answer os Z Asm_main st))]) /\
  asm_main_calls (trace_of (run os main st)) = 1%nat /\
  result_of (run (demo_platform 7 0) main 0) = 7.
Proof.
  unfold main. cbn [run].
  destruct (answer os Z Asm_main st) as [status st1].
  split; [reflexivity|]. split; reflexivity.
Qed.




(** C5.  [write s] leaves exactly [s] on standard output and [writeln s]
    leaves [s] and one newline; the texts of consecutive calls follow one
    another in call order with nothing between them. *)
Theorem write_emits_text_in_order (os : platform) (st : pstate os) (s t : string) :
  stdout_after (run os (write s) st) = Some s /\
  stdout_after (run os (writeln s) st) = Some (s ++ nl) /\
  stdout_after (run os (write s ;; write t) st) = Some (s ++ t) /\
  stdout_after (run os (writeln s ;; write t) st) = Some (s ++ nl ++ t) /\
  stdout_after (run (demo_platform 0 0) (write "abc" ;; write "def") 0) = Some "abcdef" /\
  stdout_after (run (demo_platform 0 0) (writeln "abc") 0) = Some ("abc" ++ nl).
Proof.
  assert (Hw : forall u st', stdout_after (run os (write u) st') = Some u).
  { intros u st'. unfold stdout_after, write. rewrite run_printf, stdout_of_printf.
    apply vprintf_s. }
  assert (Hl : forall u st', stdout_after (run os (writeln u) st') = Some (u ++ nl)).
  { intros u st'. unfold stdout_after, writeln. rewrite run_printf, stdout_of_printf.
    apply vprintf_s_nl. }
  assert (Hseq : forall (p q : prog unit) a b,
     (forall st', stdout_after (run os p st') = Some a) ->
     (forall st', stdout_after (run os q st') = Some b) ->
     stdout_after (run os (p ;; q) st) = Some (a ++ b)).
  { intros p q a b Hp Hq. unfold stdout_after in *. rewrite run_bind.
    specialize (Hp st). destruct (run os p st) as [[r1 st1] tr1].
    specialize (Hq st1). destruct (run os q st1) as [[r2 st2] tr2].
    unfold trace_of in *. cbn [snd] in *. rewrite stdout_of_app, Hp, Hq. reflexivity. }
  split; [apply Hw|]. split; [apply Hl|].
  split; [apply Hseq; intros st'; [apply Hw|apply Hw]|].
  split; [rewrite <- append_assoc; apply Hseq; intros st'; [apply Hl|apply Hw]|].
  split; reflexivity.
Qed.

(** C6.  For every [int] [size], [new size] makes one call, [malloc] of
    [size] converted to [size_t] (at least [size], and [size] itself when
    it is not negative), and returns the answer as it is, the null pointer
    included; the platform is left as [malloc] left it, nothing is written
    to the block. *)
Theorem new_returns_malloc_result (bits : Z) (os : platform) (st : pstate os) (size : Z) :
  32 <= bits -> in_int_range size = true ->
  let req := size_t_of_int bits size in
  let ans := answer os pointer (Malloc req) st in
  run os (new bits size) st = (fst ans, snd ans, [Ev_malloc req (fst ans)]) /\
  size <= req < 2 ^ bits /\ (0 <= size -> req = size).
Proof.
  intros Hbits Hsize req ans. split.
  - unfold new. cbn [run]. fold req. fold ans. destruct ans as [p st1]. reflexivity.
  - unfold in_int_range, INT_MIN, INT_MAX in Hsize.
    apply andb_true_iff in Hsize as [H1 H2]. apply Z.leb_le in H1, H2.
    assert (Hp : 2 ^ 32 <= 2 ^ bits) by (apply Z.pow_le_mono_r; lia).
    unfold req, size_t_of_int.
    pose proof (Z.mod_pos_bound size (2 ^ bits) ltac:(lia)) as Hm.
    split.
    + destruct (Z.le_gt_cases 0 size); [rewrite Z.mod_small|]; lia.
    + intros H0. apply Z.mod_small. lia.
Qed.

(** C6 on a heap of 1000 bytes with a 32-bit [size_t]: 16 bytes are
    granted at the address [malloc] chose; 2000 bytes are refused and [new]
    returns the null pointer. *)
Lemma new_on_small_heap :
  run (demo_platform 0 1000) (new 32 16) 0 = (4096, 16, [Ev_malloc 16 4096]) /\
  run (demo_platform 0 1000) (new 32 2000) 0 = (NULL, 0, [Ev_malloc 2000 NULL]).
Proof.
  split.
  - exact (proj1 (new_returns_malloc_result 32 (demo_platform 0 1000) 0 16
                    ltac:(lia) eq_refl)).
  - exact (proj1 (new_returns_malloc_result 32 (demo_platform 0 1000) 0 2000
                    ltac:(lia) eq_refl)).
Defined.

(** C7.  For every [float] [f], [writef32 f] is [writef] of [f] widened and
    [writelnf32 f] is [writelnf] of [f] widened: the [double] reaches
    [printf] as it is, and the text written is the same. *)
Theorem writef32_forwards_widened (os : platform) (st : pstate os) (f : float) :
  writef32 f = writef (double_of_float f) /\
  writelnf32 f = writelnf (double_of_float f) /\
  trace_of (run os (writef32 f) st) = [Ev_printf "%g" [VaDouble (double_of_float f)]] /\
  trace_of (run os (writelnf32 f) st)
    = [Ev_printf ("%g" ++ nl) [VaDouble (double_of_float f)]] /\
  stdout_after (run os (writef32 f) st) = stdout_after (run os (writef (double_of_float f)) st) /\
  stdout_after (run os (writelnf32 f) st)
    = stdout_after (run os (writelnf (double_of_float f)) st).
Proof.
  unfold writef32, writelnf32, FUNC32.
  split; [reflexivity|]. split; [reflexivity|].
  split; [apply run_printf|]. split; [apply run_printf|].
  split; reflexivity.
Qed.


(** C9.  [iround x] has a result exactly when the adjusted value, [x + 0.5]
    or [x - 0.5], is finite with its integer part in the [int] range; the
    result is then that integer part, and otherwise the conversion is
    undefined. *)
Theorem iround_defined_iff_adjusted_fits (x : double) :
  (fits_int (iround_adjust x) = true ->
     exists n, iround x = Some n /\ SFtrunc (iround_adjust x) = Some n /\
               INT_MIN <= n <= INT_MAX) /\
  (fits_int (iround_adjust x) = false -> iround x = None).
Proof.
  rewrite iround_adjusted. unfold int_of_double, fits_int, checked_int.
  destruct (SFtrunc (iround_adjust x)) as [t|]; split; intros H;
    try discriminate; try reflexivity.
  - exists t. rewrite H. split; [reflexivity|]. split; [reflexivity|].
    unfold in_int_range in H. apply andb_true_iff in H as [H1 H2].
    apply Z.leb_le in H1, H2. lia.
  - rewrite H. reflexivity.
Qed.

(** C9 at 2.5, where the adjusted value 3.0 fits, at 2147483647.5, where
    the adjusted value 2147483648.0 does not, and at a NaN. *)
Lemma iround_defined_cases :
  (exists n, iround (double_lit 25 10) = Some n /\
             SFtrunc (iround_adjust (double_lit 25 10)) = Some n /\
             INT_MIN <= n <= INT_MAX) /\
  iround (double_lit 21474836475 10) = None /\ iround S754_nan = None.
Proof.
  split; [|split].
  - apply (proj1 (iround_defined_iff_adjusted_fits (double_lit 25 10))). reflexivity.
  - apply (proj2 (iround_defined_iff_adjusted_fits (double_lit 21474836475 10))). reflexivity.
  - apply (proj2 (iround_defined_iff_adjusted_fits S754_nan)). reflexivity.
Defined.

(** C10 (as amended).  [iround32 f] is a [float]: the [int] that [iround]
    returns for [f] widened, converted to [float]; and for every [float]
    [f] the conversion is exact, the [float] returned is that integer. *)
Theorem iround32_is_float_of_iround (f y : float) :
  valid_float f = true -> iround32 f = Some y ->
  iround32 f = option_map float_of_int (iround (double_of_float f)) /\
  exists n, iround (double_of_float f) = Some n /\ y = float_of_int n /\
            represents_int y n = true.
Proof.
  intros Hv Hy. split; [reflexivity|]. apply iround32_result_exact; assumption.
Qed.

(** C10 at 16777218.0f, above 2^24: the result is 16777218.0f. *)
Lemma iround32_above_2_24 :
  iround32 (float_lit 16777218 1)
    = option_map float_of_int (iround (double_of_float (float_lit 16777218 1))) /\
  exists n, iround (double_of_float (float_lit 16777218 1)) = Some n /\
            float_lit 16777218 1 = float_of_int n /\
            represents_int (float_lit 16777218 1) n = true.
Proof.
  exact (iround32_is_float_of_iround (float_lit 16777218 1) (float_lit 16777218 1)
           eq_refl eq_refl).
Defined.

(** C10 as stated fails: no [float] input makes [iround32] return a
    [float] that differs from the rounded integer, whatever its magnitude. *)
Lemma iround32_never_inexact :
  ~ exists (f : float) (n : Z),
      valid_float f = true /\ iround (double_of_float f) = Some n /\
      2 ^ 24 < Z.abs n /\ represents_int (float_of_int n) n = false.
Proof.
  intros (f & n & Hv & Hn & _ & Hr).
  destruct (iround32_result_exact f (float_of_int n) Hv) as (n' & Hn' & _ & Hr').
  - unfold iround32, FUNC32. rewrite Hn. reflexivity.
  - rewrite Hn in Hn'. injection Hn' as <-. congruence.
Qed.


(** The conversion of an [int] to [float] does lose bits elsewhere: 16777217
    becomes 16777216.0f, and [iround] of the [double] 16777217.0 is the
    [int] 16777217. *)
Example float_of_int_16777217 :
  float_of_int 16777217 = float_lit 16777216 1 /\
  represents_int (float_of_int 16777217) 16777217 = false /\
  iround (double_lit 16777217 1) = Some 16777217.
Proof. split; [|split]; vm_compute; reflexivity. Qed.

(** * Beyond the claims *)

(** [iround] on every [double] but [0.5 - 2^-54] and its opposite: it
    returns [n] exactly when [n] is the integer nearest to [x], a tie going
    away from zero, and [n] is an [int]; it has no result otherwise. *)
Theorem iround_some_iff (x : double) (n : Z) :
  valid_double x = true -> SFabs x <> d_pred_half ->
  (iround x = Some n <-> is_nearest_away x n = true /\ in_int_range n = true).
Proof.
  intros Hv Hne. rewrite iround_characterised by assumption. split.
  - destruct (round_half_away x) as [k|] eqn:Ek; [|discriminate].
    unfold checked_int. destruct (in_int_range k) eqn:Er; [|discriminate].
    intros [= <-]. split; [apply round_half_away_is_nearest; exact Ek|exact Er].
  - intros [Hn Hr]. rewrite (is_nearest_away_unique x n Hn).
    unfold checked_int. rewrite Hr. reflexivity.
Qed.

Lemma iround_some_iff_at_2_5 :
  iround (double_lit 25 10) = Some 3 <->
  is_nearest_away (double_lit 25 10) 3 = true /\ in_int_range 3 = true.
Proof.
  apply (iround_some_iff (double_lit 25 10) 3); [reflexivity|vm_compute; discriminate].
Defined.

(** ** Symmetry about zero *)

Lemma fin_or_inf_opp prec emax (s : bool) (m e : Z) :
  SFopp (fin_or_inf prec emax s m e) = fin_or_inf prec emax (negb s) m e.
Proof.
  destruct m as [|p|p]; cbn [fin_or_inf]; try reflexivity.
  destruct (e <=? emax - prec); reflexivity.
Qed.

Lemma round_spec_opp prec emax (s : bool) (M e : Z) :
  SFopp (round_spec prec emax s M e) = round_spec prec emax (negb s) M e.
Proof.
  unfold round_spec. cbv zeta.
  repeat match goal with |- context [if ?b then _ else _] => destruct b end;
    apply fin_or_inf_opp.
Qed.

Lemma SFtrunc_opp (y : spec_float) : SFtrunc (SFopp y) = option_map Z.opp (SFtrunc y).
Proof.
  destruct y as [s|s| |s m e]; cbn [SFopp SFtrunc option_map]; try reflexivity.
  f_equal. destruct s; cbn [negb cond_Zopp]; lia.
Qed.

Lemma iround_adjust_opp (x : double) :
  (forall s, x <> S754_zero s) -> iround_adjust (SFopp x) = SFopp (iround_adjust x).
Proof.
  intros Hnz. destruct x as [s|s| |s m e].
  - destruct (Hnz s eq_refl).
  - destruct s; reflexivity.
  - reflexivity.
  - cbn [SFopp]. rewrite !iround_adjust_finite. cbv zeta.
    rewrite round_spec_opp. reflexivity.
Qed.

(** [iround] is symmetric about zero: when [iround x] is [n], [iround]
    of [-x] is [-n], and has no result when [-n] is no [int], which is the
    case of [n = INT_MIN] alone. *)
Theorem iround_opp (x : double) (n : Z) :
  iround x = Some n -> iround (SFopp x) = checked_int (- n).
Proof.
  intros Hn. destruct x as [s|s| |s m e].
  - destruct s; vm_compute in Hn; injection Hn as <-; reflexivity.
  - destruct s; discriminate Hn.
  - discriminate Hn.
  - rewrite iround_adjusted in *. rewrite iround_adjust_opp by discriminate.
    unfold int_of_double in *. rewrite SFtrunc_opp.
    destruct (SFtrunc (iround_adjust (S754_finite s m e))) as [t|]; [|discriminate].
    cbn [option_map]. unfold checked_int in Hn.
    destruct (in_int_range t); [|discriminate]. injection Hn as <-. reflexivity.
Qed.

(** At 2.5, and at -2147483648.0, whose opposite has no result. *)
Lemma iround_opp_cases :
  iround (SFopp (double_lit 25 10)) = checked_int (- 3) /\
  iround (SFopp (double_lit (-2147483648) 1)) = checked_int (- -2147483648) /\
  checked_int (- 3) = Some (-3) /\ checked_int (- -2147483648) = None.
Proof.
  split; [|split; [|split; reflexivity]].
  - apply (iround_opp (double_lit 25 10) 3). reflexivity.
  - apply (iround_opp (double_lit (-2147483648) 1) (-2147483648)). reflexivity.
Defined.

(** ** Integer-valued arguments *)

(** A value that is an integer is its own nearest integer. *)
Lemma represents_int_nearest (x : spec_float) (n : Z) :
  represents_int x n = true -> is_nearest_away x n = true.
Proof.
  destruct x as [s|s| |s m e]; cbn [represents_int is_nearest_away]; try discriminate.
  - intros H; exact H.
  - unfold magnitude. destruct (Z.leb_spec 0 e) as [He|He].
    + intros H. apply Z.eqb_eq in H.
      assert (Hp : 0 < 2 ^ e) by (apply Z.pow_pos_nonneg; lia).
      assert (Ek : Z.abs n = Zpos m * 2 ^ e) by (subst n; destruct s; cbn [cond_Zopp]; nia).
      rewrite Ek. rewrite <- H, Z.eqb_refl. cbn [andb].
      apply andb_true_iff. split; [apply Z.leb_le|apply Z.ltb_lt]; lia.
    + intros H. apply andb_true_iff in H as [Hd H].
      apply Z.eqb_eq in Hd, H.
      assert (Hp : 0 < 2 ^ (- e)) by (apply Z.pow_pos_nonneg; lia).
      pose proof (Z.div_mod (Zpos m) (2 ^ (- e)) ltac:(lia)) as Hm. rewrite Hd in Hm.
      assert (Hq : 0 <= Zpos m / 2 ^ (- e)) by (apply Z.div_pos; lia).
      assert (Ek : Z.abs n = Zpos m / 2 ^ (- e)) by (subst n; destruct s; cbn [cond_Zopp]; lia).
      rewrite Ek. rewrite <- H, Z.eqb_refl. cbn [andb].
      apply andb_true_iff. split; [apply Z.leb_le|apply Z.ltb_lt]; nia.
Qed.

Lemma represents_int_not_pred_half (x : spec_float) (n : Z) :
  represents_int x n = true -> SFabs x <> d_pred_half.
Proof.
  intros H E. destruct x as [s|s| |s m e]; try discriminate E.
  unfold d_pred_half in E. cbn [SFabs] in E. injection E as -> ->.
  cbn [represents_int] in H. vm_compute in H. discriminate H.
Qed.

Lemma iround_integer_valued (x : double) (n : Z) :
  valid_double x = true -> represents_int x n = true -> iround x = checked_int n.
Proof.
  intros Hv Hn. rewrite iround_characterised;
    [|exact Hv|exact (represents_int_not_pred_half x n Hn)].
  rewrite (is_nearest_away_unique x n (represents_int_nearest x n Hn)). reflexivity.
Qed.

(** [iround] returns an integer-valued argument unchanged: a [double]
    that is exactly the [int] [n] is rounded to [n]. *)
Theorem iround_of_integer (x : double) (n : Z) :
  valid_double x = true -> represents_int x n = true -> in_int_range n = true ->
  iround x = Some n.
Proof.
  intros Hv Hn Hr. rewrite (iround_integer_valued x n Hv Hn).
  unfold checked_int. rewrite Hr. reflexivity.
Qed.

(** At 2^30, held as the [double] 2^52 * 2^-22. *)
Lemma iround_of_integer_at_2_pow_30 :
  iround (S754_finite false 4503599627370496 (-22)) = Some 1073741824.
Proof.
  apply (iround_of_integer (S754_finite false 4503599627370496 (-22)) 1073741824);
    reflexivity.
Defined.

(** An [int] converts to [double] exactly. *)
Lemma double_of_mag_exact (s : bool) (N : Z) :
  0 < N <= 2 ^ 31 ->
  valid_double (double_of_int (cond_Zopp s N)) = true /\
  represents_int (double_of_int (cond_Zopp s N)) (cond_Zopp s N) = true.
Proof.
  intros [HN Hr].
  unfold double_of_int. rewrite binary_normalize_nonzero by lia.
  assert (Hd : 0 < Zdigits2 N /\ 2 ^ (Zdigits2 N - 1) <= N < 2 ^ Zdigits2 N).
  { destruct N as [|p|p]; try lia. cbn [Zdigits2]. split; [lia|]. apply digits2_pos_bounds. }
  destruct Hd as (Hd0 & Hdl & Hdu).
  assert (Hd32 : Zdigits2 N <= 32).
  { destruct (Z.le_gt_cases (Zdigits2 N) 32); auto.
    assert (2 ^ 32 <= 2 ^ (Zdigits2 N - 1)) by (apply Z.pow_le_mono_r; lia).
    change (2 ^ 32) with (2 * 2 ^ 31) in *. lia. }
  assert (Hdig : Zdigits2 (N * 2 ^ (53 - Zdigits2 N)) = 53).
  { destruct N as [|p|p]; try lia. rewrite Zdigits2_shl by lia. cbn [Zdigits2]. lia. }
  unfold round_spec.
  set (d := Zdigits2 N) in *.
  replace (fexp 53 1024 (d + 0)) with (d - 53) by (unfold fexp, emin; lia).
  destruct (Z.leb_spec (d - 53) 0); [|lia].
  replace (0 - (d - 53)) with (53 - d) by lia.
  assert (Hp : 0 < 2 ^ (53 - d)) by (apply Z.pow_pos_nonneg; lia).
  rewrite fin_or_inf_pos by lia.
  split.
  - unfold valid_double, valid_binary, bounded, canonical_mantissa.
    assert (E : Zpos (digits2_pos (Z.to_pos (N * 2 ^ (53 - d)))) = 53).
    { destruct (N * 2 ^ (53 - d)) eqn:Ez; try lia. exact Hdig. }
    rewrite E. apply andb_true_iff. split.
    + apply Z.eqb_eq. unfold fexp, emin. lia.
    + apply Z.leb_le. lia.
  - cbn [represents_int]. rewrite Z2Pos.id by lia.
    destruct (Z.leb_spec 0 (d - 53)); [lia|].
    replace (- (d - 53)) with (53 - d) by lia.
    rewrite Z.mod_mul, Z.div_mul by lia. rewrite !Z.eqb_refl. reflexivity.
Qed.

Lemma double_of_int_exact (n : Z) :
  Z.abs n <= 2 ^ 31 ->
  valid_double (double_of_int n) = true /\ represents_int (double_of_int n) n = true.
Proof.
  intros Hr. destruct n as [|p|p].
  - split; reflexivity.
  - apply (double_of_mag_exact false (Zpos p)). lia.
  - apply (double_of_mag_exact true (Zpos p)). lia.
Qed.

(** Round trip: every [int], [INT_MIN] and [INT_MAX] included, converts to
    [double] exactly, and [iround] of that [double] is the [int] again. *)
Theorem iround_double_of_int (n : Z) :
  in_int_range n = true ->
  represents_int (double_of_int n) n = true /\ iround (double_of_int n) = Some n.
Proof.
  intros Hr.
  assert (Habs : Z.abs n <= 2 ^ 31).
  { unfold in_int_range, INT_MIN, INT_MAX in Hr.
    apply andb_true_iff in Hr as [H1 H2]. apply Z.leb_le in H1, H2. lia. }
  destruct (double_of_int_exact n Habs) as [Hv Hx]. split; [exact Hx|].
  rewrite (iround_integer_valued _ n Hv Hx). unfold checked_int. rewrite Hr. reflexivity.
Qed.

(** At [INT_MIN]. *)
Lemma iround_double_of_int_min :
  represents_int (double_of_int INT_MIN) INT_MIN = true /\
  iround (double_of_int INT_MIN) = Some INT_MIN.
Proof. apply (iround_double_of_int INT_MIN). reflexivity. Defined.

(** ** [iround] keeps the order *)

(** The nearest integer as a function of the value in units of 2^-1074. *)
Lemma nearest_away_mag_units (m : positive) (e : Z) :
  -1074 <= e ->
  nearest_away_mag m e = (2 * (Zpos m * 2 ^ (e + 1074)) + 2 ^ 1074) / 2 ^ 1075.
Proof.
  intros He. unfold nearest_away_mag.
  assert (Hc : 0 < 2 ^ 1074) by (apply Z.pow_pos_nonneg; lia).
  change (2 ^ 1075) with (2 * 2 ^ 1074).
  destruct (Z.leb_spec 0 e).
  - rewrite Z.pow_add_r by lia.
    replace (2 * (Zpos m * (2 ^ e * 2 ^ 1074)) + 2 ^ 1074)
      with ((2 * (Zpos m * 2 ^ e) + 1) * 2 ^ 1074) by ring.
    rewrite Z.div_mul_cancel_r by lia.
    symmetry. apply div_between; lia.
  - assert (Hp : 0 < 2 ^ (e + 1074)) by (apply Z.pow_pos_nonneg; lia).
    assert (E : 2 ^ 1074 = 2 ^ (- e) * 2 ^ (e + 1074)).
    { rewrite <- Z.pow_add_r by lia. f_equal. lia. }
    rewrite E.
    replace (2 * (Zpos m * 2 ^ (e + 1074)) + 2 ^ (- e) * 2 ^ (e + 1074))
      with ((2 * Zpos m + 2 ^ (- e)) * 2 ^ (e + 1074)) by ring.
    rewrite Z.mul_assoc, Z.div_mul_cancel_r by (pose proof (Z.pow_pos_nonneg 2 (- e)); lia).
    f_equal. replace (1 - e) with (1 + - e) by lia. rewrite Z.pow_add_r by lia. reflexivity.
Qed.

(** Normal values: a smaller exponent, or the same exponent and a smaller
    mantissa, is a smaller nearest integer. *)
Lemma nearest_away_mag_mono (m1 m2 : positive) (e1 e2 : Z) :
  -1074 <= e1 -> Zpos m1 < 2 ^ 53 -> 2 ^ 52 <= Zpos m2 ->
  e1 < e2 \/ (e1 = e2 /\ Zpos m1 <= Zpos m2) ->
  nearest_away_mag m1 e1 <= nearest_away_mag m2 e2.
Proof.
  intros He1 Hm1 Hm2 Hord.
  rewrite !nearest_away_mag_units by lia.
  apply Z.div_le_mono; [reflexivity|].
  assert (Hp1 : 0 < 2 ^ (e1 + 1074)) by (apply Z.pow_pos_nonneg; lia).
  destruct Hord as [Hlt|[-> Hle]]; [|nia].
  assert (Hs : 2 * 2 ^ (e1 + 1074) <= 2 ^ (e2 + 1074)).
  { replace (e2 + 1074) with (e1 + 1074 + 1 + (e2 - e1 - 1)) by lia.
    set (u := e1 + 1074) in *. rewrite (Z.pow_add_r 2 (u + 1)), (Z.pow_add_r 2 u 1) by lia.
    change (2 ^ 1) with 2.
    pose proof (Z.pow_pos_nonneg 2 (e2 - e1 - 1) ltac:(lia) ltac:(lia)). nia. }
  change (2 ^ 53) with (2 * 2 ^ 52) in Hm1. nia.
Qed.

Lemma nearest_away_mag_normal (m : positive) (e : Z) :
  -53 <= e -> 2 ^ 52 <= Zpos m -> 1 <= nearest_away_mag m e.
Proof.
  intros He Hm. unfold nearest_away_mag. destruct (Z.leb_spec 0 e).
  - pose proof (Z.pow_pos_nonneg 2 e ltac:(lia) ltac:(lia)). nia.
  - apply Z.div_le_lower_bound; [apply Z.pow_pos_nonneg; lia|].
    replace (1 - e) with (1 + - e) by lia. rewrite Z.pow_add_r by lia. change (2 ^ 1) with 2.
    assert (2 ^ (- e) <= 2 ^ 53) by (apply Z.pow_le_mono_r; lia).
    change (2 ^ 53) with (2 * 2 ^ 52) in *. lia.
Qed.

(** The magnitude [iround] returns on every finite [double], and its
    order. *)
Lemma iround_magnitude :
  exists K : positive -> Z -> Z,
    (forall s m e, bounded 53 1024 m e = true ->
       iround (S754_finite s m e) = checked_int (cond_Zopp s (K m e))) /\
    (forall m e, 0 <= K m e) /\
    (forall m1 e1 m2 e2,
       bounded 53 1024 m1 e1 = true -> bounded 53 1024 m2 e2 = true ->
       e1 < e2 \/ (e1 = e2 /\ Zpos m1 <= Zpos m2) -> K m1 e1 <= K m2 e2).
Proof.
  exists (fun m e => if (Zpos m =? 9007199254740991) && (e =? -54) then 1
                     else nearest_away_mag m e).
  split; [|split].
  - intros s m e Hb.
    destruct ((Zpos m =? 9007199254740991) && (e =? -54)) eqn:Eph.
    + apply andb_true_iff in Eph as [Em Ee]. apply Z.eqb_eq in Em, Ee.
      injection Em as ->. subst e. destruct s; vm_compute; reflexivity.
    + apply iround_finite; [exact Hb|]. unfold d_pred_half. intros [= -> ->].
      discriminate Eph.
  - intros m e. destruct (_ && _); [lia|apply nearest_away_mag_nonneg].
  - intros m1 e1 m2 e2 Hb1 Hb2 Hord.
    apply bounded_double in Hb1 as (He1 & Hm1 & Hn1).
    apply bounded_double in Hb2 as (He2 & Hm2 & Hn2).
    destruct (Z.lt_ge_cases e2 (-53)) as [Hlo2|Hhi2].
    + (* both below one half *)
      rewrite (nearest_away_mag_small m1 e1), (nearest_away_mag_small m2 e2) by lia.
      destruct ((Zpos m1 =? _) && (e1 =? -54)) eqn:E1;
        destruct ((Zpos m2 =? _) && (e2 =? -54)) eqn:E2; lia.
    + specialize (Hn2 ltac:(lia)).
      pose proof (nearest_away_mag_normal m2 e2 Hhi2 Hn2) as H2.
      replace (e2 =? -54) with false by (symmetry; apply Z.eqb_neq; lia).
      rewrite andb_false_r.
      destruct (Z.lt_ge_cases e1 (-53)) as [Hlo1|Hhi1].
      * rewrite (nearest_away_mag_small m1 e1) by lia. destruct (_ && _); lia.
      * replace (e1 =? -54) with false by (symmetry; apply Z.eqb_neq; lia).
        rewrite andb_false_r. apply nearest_away_mag_mono; [lia|exact Hm1|exact Hn2|exact Hord].
Qed.

Lemma checked_int_some (v a : Z) : checked_int v = Some a -> a = v.
Proof. unfold checked_int. destruct (in_int_range v); [intros [= <-]; reflexivity|discriminate]. Qed.

Lemma SFleb_same_sign (s : bool) (m1 m2 : positive) (e1 e2 : Z) :
  SFleb (S754_finite s m1 e1) (S754_finite s m2 e2) = true ->
  if s then e2 < e1 \/ (e2 = e1 /\ Zpos m2 <= Zpos m1)
  else e1 < e2 \/ (e1 = e2 /\ Zpos m1 <= Zpos m2).
Proof.
  unfold SFleb. cbn [SFcompare].
  change (PosDef.Pos.compare_cont Eq m1 m2) with (Pos.compare m1 m2).
  destruct s; destruct (Z.compare_spec e1 e2) as [E|E|E]; try discriminate;
    try (intros _; left; exact E);
    destruct (Pos.compare_spec m1 m2); try discriminate; intros _; right; lia.
Qed.

(** [iround] is monotone: when [x <= y] and both have a result, the
    result of [x] is at most the result of [y]; this holds across zero
    and around one half. *)
Theorem iround_monotone (x y : double) (a b : Z) :
  valid_double x = true -> valid_double y = true -> SFleb x y = true ->
  iround x = Some a -> iround y = Some b -> a <= b.
Proof.
  intros Hx Hy Hle Ha Hb.
  destruct iround_magnitude as (K & HK & HK0 & Hmono).
  destruct x as [sx|sx| |sx mx ex]; try (destruct sx; discriminate Ha); try discriminate Ha;
    destruct y as [sy|sy| |sy my ey]; try (destruct sy; discriminate Hb); try discriminate Hb.
  - assert (a = 0) by (destruct sx; vm_compute in Ha; congruence).
    assert (b = 0) by (destruct sy; vm_compute in Hb; congruence). lia.
  - assert (a = 0) by (destruct sx; vm_compute in Ha; congruence).
    rewrite (HK sy my ey Hy) in Hb. apply checked_int_some in Hb.
    destruct sy; [discriminate Hle|]. cbn [cond_Zopp] in Hb. pose proof (HK0 my ey). lia.
  - assert (b = 0) by (destruct sy; vm_compute in Hb; congruence).
    rewrite (HK sx mx ex Hx) in Ha. apply checked_int_some in Ha.
    destruct sx; [|discriminate Hle]. cbn [cond_Zopp] in Ha. pose proof (HK0 mx ex). lia.
  - rewrite (HK sx mx ex Hx) in Ha. apply checked_int_some in Ha.
    rewrite (HK sy my ey Hy) in Hb. apply checked_int_some in Hb.
    pose proof (HK0 mx ex). pose proof (HK0 my ey).
    destruct sx, sy; cbn [cond_Zopp] in *.
    + apply SFleb_same_sign in Hle. pose proof (Hmono my ey mx ex Hy Hx Hle). lia.
    + lia.
    + discriminate Hle.
    + apply SFleb_same_sign in Hle. pose proof (Hmono mx ex my ey Hx Hy Hle). lia.
Qed.

(** Around one half: 0.49 and [0.5 - 2^-54], then the latter and 0.5. *)
Lemma iround_monotone_near_half :
  (iround (double_lit 49 100) = Some 0 /\ iround d_pred_half = Some 1 /\ 0 <= 1) /\
  (iround d_pred_half = Some 1 /\ iround (double_lit 5 10) = Some 1 /\ 1 <= 1).
Proof.
  split; (split; [reflexivity|split; [reflexivity|]]).
  - apply (iround_monotone (double_lit 49 100) d_pred_half 0 1); reflexivity.
  - apply (iround_monotone d_pred_half (double_lit 5 10) 1 1); reflexivity.
Defined.

(** ** What a rounding returns is a float of the format *)

Section RoundingValid.
Variables prec emax : Z.
Hypothesis Hprec : 0 < prec.

Lemma fin_or_inf_valid (s : bool) (q e : Z) :
  0 <= q -> fexp prec emax (Zdigits2 q + e) = e ->
  valid_binary prec emax (fin_or_inf prec emax s q e) = true.
Proof.
  intros Hq Hc. destruct q as [|p|p]; try lia; cbn [fin_or_inf]; [reflexivity|].
  destruct (Z.leb_spec e (emax - prec)) as [He|He]; [|reflexivity].
  cbn [valid_binary]. unfold bounded, canonical_mantissa. cbn [Zdigits2] in Hc.
  rewrite Hc, Z.eqb_refl. cbn [andb]. apply Z.leb_le. exact He.
Qed.

Lemma Zdigits2_bounds (q : Z) : 0 < q -> 2 ^ (Zdigits2 q - 1) <= q < 2 ^ Zdigits2 q.
Proof. intros Hq. destruct q as [|p|p]; try lia. apply digits2_pos_bounds. Qed.

Lemma Zdigits2_pos (q : Z) : 0 < q -> 0 < Zdigits2 q.
Proof. intros Hq. destruct q as [|p|p]; try lia. cbn [Zdigits2]. lia. Qed.

Lemma round_spec_valid (s : bool) (M e : Z) :
  0 < M -> valid_binary prec emax (round_spec prec emax s M e) = true.
Proof.
  intros HM. unfold round_spec.
  pose proof (Zdigits2_bounds M HM) as [Hl Hu]. pose proof (Zdigits2_pos M HM) as Hd0.
  set (d := Zdigits2 M) in *. set (e0 := fexp prec emax (d + e)).
  assert (He0 : e0 = Z.max (d + e - prec) (emin prec emax)) by reflexivity.
  assert (Hpp : 2 ^ prec = 2 * 2 ^ (prec - 1)).
  { replace prec with (1 + (prec - 1)) at 1 by lia. rewrite Z.pow_add_r by lia. reflexivity. }
  assert (Hp1 : 0 < 2 ^ (prec - 1)) by (apply Z.pow_pos_nonneg; lia).
  destruct (Z.leb_spec e0 e) as [Hle|Hgt].
  - (* exact: the mantissa is shifted left *)
    assert (Hp : 0 < 2 ^ (e - e0)) by (apply Z.pow_pos_nonneg; lia).
    apply fin_or_inf_valid; [nia|].
    destruct M as [|p|p]; try lia. rewrite Zdigits2_shl by lia. fold (Zdigits2 (Zpos p)). fold d.
    replace (d + (e - e0) + e0) with (d + e) by lia. reflexivity.
  - set (n := e0 - e). assert (Hn : 0 < n) by (unfold n; lia).
    assert (Hpn : 0 < 2 ^ n) by (apply Z.pow_pos_nonneg; lia).
    set (q := M / 2 ^ n).
    set (q' := round_even q _ _).
    assert (Hb : q <= q' <= q + 1) by apply round_even_bounds.
    assert (Hq0 : 0 <= q) by (apply Z.div_pos; lia).
    (* the truncated mantissa has at most [prec] bits *)
    assert (Hqu : q < 2 ^ prec).
    { apply Z.div_lt_upper_bound; [lia|]. rewrite <- Z.pow_add_r by lia.
      eapply Z.lt_le_trans; [exact Hu|]. apply Z.pow_le_mono_r; lia. }
    destruct (Z.eqb_spec q' (2 ^ prec)) as [Ecarry|Hnc].
    + apply fin_or_inf_valid; [lia|].
      rewrite (Zdigits2_unique (2 ^ (prec - 1)) prec); [|lia|].
      * unfold fexp. fold (fexp prec emax (d + e)). fold e0.
        pose proof (fexp_ge_emin prec emax (d + e)). fold e0 in H. lia.
      * replace (prec - 1 - 1 + 1) with (prec - 1) by lia. lia.
    + destruct (Z.eq_dec q' 0) as [E0|Hne0]; [rewrite E0; reflexivity|].
      apply fin_or_inf_valid; [lia|].
      pose proof (Zdigits2_bounds q' ltac:(lia)) as [Hl' Hu'].
      pose proof (Zdigits2_pos q' ltac:(lia)) as Hd'.
      assert (Hdq : Zdigits2 q' <= prec).
      { destruct (Z.le_gt_cases (Zdigits2 q') prec); auto.
        assert (2 ^ prec <= 2 ^ (Zdigits2 q' - 1)) by (apply Z.pow_le_mono_r; lia). lia. }
      destruct (Z.le_gt_cases (emin prec emax) (d + e - prec)) as [Hnorm|Hsub].
      * (* normal range: exactly [prec] bits *)
        assert (En : n = d - prec) by (unfold n; lia).
        assert (2 ^ (prec - 1) <= q).
        { apply Z.div_le_lower_bound; [lia|]. rewrite <- Z.pow_add_r by lia.
          replace (n + (prec - 1)) with (d - 1) by lia. exact Hl. }
        assert (Zdigits2 q' = prec).
        { apply Zdigits2_unique; lia. }
        unfold fexp. lia.
      * unfold fexp. lia.
Qed.

End RoundingValid.

(** ** The result conversion of [FUNC32] *)

Lemma float_of_double_finite (s : bool) (m : positive) (e : Z) :
  float_of_double (S754_finite s m e) = round_spec 24 128 s (Zpos m) e.
Proof. cbn [float_of_double]. apply binary_normalize_nonzero; lia. Qed.

Lemma float_of_double_valid (x : double) : valid_float (float_of_double x) = true.
Proof.
  destruct x as [s|s| |s m e]; try reflexivity.
  rewrite float_of_double_finite. apply round_spec_valid; lia.
Qed.

(** Whatever the [<math.h>] functions return, each wrapper returns a value
    of the [float] format: a NaN, an infinity, a zero, or a finite value of
    at most 24 significant bits with its exponent in range. *)
Theorem func32_results_are_floats (sin cos sqrt exp round : double -> double) (f : float) :
  valid_float (sin32 sin f) = true /\ valid_float (cos32 cos f) = true /\
  valid_float (sqrt32 sqrt f) = true /\ valid_float (exp32 exp f) = true /\
  valid_float (round32 round f) = true.
Proof.
  unfold sin32, cos32, sqrt32, exp32, round32, FUNC32.
  split; [|split; [|split; [|split]]]; apply float_of_double_valid.
Qed.

Lemma fin_or_inf_overflow (prec emax : Z) (s : bool) (q e : Z) :
  0 < q -> emax - prec < e -> fin_or_inf prec emax s q e = S754_infinity s.
Proof.
  intros Hq He. destruct q as [|p|p]; try lia. cbn [fin_or_inf].
  destruct (Z.leb_spec e (emax - prec)); [lia|reflexivity].
Qed.

Lemma round_spec_overflow (s : bool) (M e : Z) :
  0 < M -> 0 <= e -> 2 ^ 128 <= M * 2 ^ e -> round_spec 24 128 s M e = S754_infinity s.
Proof.
  intros HM He Hbig.
  pose proof (Zdigits2_bounds M HM) as [Hl Hu]. pose proof (Zdigits2_pos M HM) as Hd0.
  unfold round_spec. set (d := Zdigits2 M) in *.
  assert (Hpe : 0 < 2 ^ e) by (apply Z.pow_pos_nonneg; lia).
  assert (Hde : 129 <= d + e).
  { destruct (Z.le_gt_cases 129 (d + e)); auto.
    assert (2 ^ d * 2 ^ e <= 2 ^ 128).
    { rewrite <- Z.pow_add_r by lia. apply Z.pow_le_mono_r; lia. }
    nia. }
  replace (fexp 24 128 (d + e)) with (d + e - 24) by (unfold fexp, emin; lia).
  destruct (Z.leb_spec (d + e - 24) e).
  - apply fin_or_inf_overflow; [|lia].
    pose proof (Z.pow_pos_nonneg 2 (e - (d + e - 24)) ltac:(lia) ltac:(lia)). nia.
  - replace (d + e - 24 - e) with (d - 24) by lia.
    set (q' := round_even _ _ _).
    assert (Hq : 2 ^ 23 <= M / 2 ^ (d - 24)).
    { apply Z.div_le_lower_bound; [apply Z.pow_pos_nonneg; lia|].
      rewrite <- Z.pow_add_r by lia. replace (d - 24 + 23) with (d - 1) by lia. exact Hl. }
    assert (Hb : M / 2 ^ (d - 24) <= q') by apply round_even_bounds.
    destruct (q' =? 2 ^ 24); apply fin_or_inf_overflow; lia.
Qed.

Lemma round_spec_underflow (s : bool) (M e : Z) :
  0 < M -> e <= -150 -> M <= 2 ^ (-150 - e) -> round_spec 24 128 s M e = S754_zero s.
Proof.
  intros HM He Hsmall.
  pose proof (Zdigits2_bounds M HM) as [Hl Hu]. pose proof (Zdigits2_pos M HM) as Hd0.
  unfold round_spec. set (d := Zdigits2 M) in *.
  assert (Hde : d + e <= -149).
  { destruct (Z.le_gt_cases (d + e) (-149)); auto.
    assert (2 ^ (-150 - e + 1) <= 2 ^ (d - 1)) by (apply Z.pow_le_mono_r; lia).
    rewrite Z.pow_add_r in H0 by lia. change (2 ^ 1) with 2 in H0.
    pose proof (Z.pow_pos_nonneg 2 (-150 - e) ltac:(lia) ltac:(lia)). lia. }
  replace (fexp 24 128 (d + e)) with (-149) by (unfold fexp, emin; lia).
  destruct (Z.leb_spec (-149) e); [lia|].
  replace (-149 - e - 1) with (-150 - e) by lia.
  replace (-149 - e) with (-150 - e + 1) by lia.
  set (n := -150 - e) in *.
  assert (Hp : 0 < 2 ^ n) by (apply Z.pow_pos_nonneg; lia).
  assert (Hq : M / 2 ^ (n + 1) = 0).
  { apply Z.div_small. rewrite Z.pow_add_r by lia. change (2 ^ 1) with 2. lia. }
  rewrite Hq. unfold round_even. cbn [Z.odd orb].
  assert (Hr : Z.odd (M / 2 ^ n) && negb (M mod 2 ^ n =? 0) = false).
  { destruct (Z.eq_dec M (2 ^ n)) as [->|Hne].
    - rewrite Z.mod_same by lia. apply andb_false_r.
    - rewrite Z.div_small by lia. reflexivity. }
  rewrite orb_false_r, Hr. reflexivity.
Qed.

(** A result that does not fit a [float]: of magnitude 2^128 or more, the
    wrapper returns the infinity of its sign; of magnitude 2^-150 or less,
    the zero of its sign. *)
Theorem func32_out_of_range (a : double -> double) (f : float)
    (s : bool) (m : positive) (e : Z) :
  a (double_of_float f) = S754_finite s m e ->
  (0 <= e -> 2 ^ 128 <= Zpos m * 2 ^ e -> FUNC32 a float_of_double f = S754_infinity s) /\
  (e <= -150 -> Zpos m <= 2 ^ (-150 - e) -> FUNC32 a float_of_double f = S754_zero s).
Proof.
  intros Ea. unfold FUNC32. rewrite Ea, float_of_double_finite. split.
  - intros He Hbig. apply round_spec_overflow; [lia|exact He|exact Hbig].
  - intros He Hsmall. apply round_spec_underflow; [lia|exact He|exact Hsmall].
Qed.

(** The square of 2^100 is a [double] too large for a [float], the square
    of 2^-100 one too small. *)
Lemma func32_out_of_range_squares :
  FUNC32 (fun x => SFmul 53 1024 x x) float_of_double (float_lit (2 ^ 100) 1)
    = S754_infinity false /\
  FUNC32 (fun x => SFmul 53 1024 x x) float_of_double (float_lit (-1) (2 ^ 100))
    = S754_zero false.
Proof.
  split.
  - apply (func32_out_of_range (fun x => SFmul 53 1024 x x) (float_lit (2 ^ 100) 1)
             false 4503599627370496 148 eq_refl); [lia|vm_compute; discriminate].
  - apply (func32_out_of_range (fun x => SFmul 53 1024 x x) (float_lit (-1) (2 ^ 100))
             false 4503599627370496 (-252) eq_refl); [lia|vm_compute; discriminate].
Defined.

(** ** [iround32] on the [float] itself *)

Lemma leb_scale (a b c : Z) : 0 < c -> (a * c <=? b * c) = (a <=? b).
Proof. intros Hc. destruct (Z.leb_spec (a * c) (b * c)), (Z.leb_spec a b); try reflexivity; nia. Qed.

Lemma ltb_scale (a b c : Z) : 0 < c -> (a * c <? b * c) = (a <? b).
Proof. intros Hc. destruct (Z.ltb_spec (a * c) (b * c)), (Z.ltb_spec a b); try reflexivity; nia. Qed.

(** Widening keeps the value: the magnitude fraction is scaled. *)
Lemma magnitude_scaled (m : positive) (e k : Z) :
  0 <= k ->
  exists c, 0 < c /\
    fst (magnitude (Z.to_pos (Zpos m * 2 ^ k)) (e - k)) = fst (magnitude m e) * c /\
    snd (magnitude (Z.to_pos (Zpos m * 2 ^ k)) (e - k)) = snd (magnitude m e) * c.
Proof.
  intros Hk. assert (Hpk : 0 < 2 ^ k) by (apply Z.pow_pos_nonneg; lia).
  unfold magnitude. rewrite Z2Pos.id by nia.
  destruct (Z.leb_spec 0 (e - k)), (Z.leb_spec 0 e); cbn [fst snd]; try lia.
  - exists 1. split; [lia|]. split; [|lia].
    rewrite <- Z.mul_assoc, <- Z.pow_add_r by lia. replace (k + (e - k)) with e by ring. ring.
  - exists (2 ^ (k - e)). split; [apply Z.pow_pos_nonneg; lia|]. split; [|rewrite Z.mul_1_l; f_equal; lia].
    rewrite <- Z.mul_assoc, <- Z.pow_add_r by lia. replace (e + (k - e)) with k by lia. reflexivity.
  - exists (2 ^ k). split; [exact Hpk|]. split; [reflexivity|].
    rewrite <- Z.pow_add_r by lia. f_equal. lia.
Qed.

Lemma is_nearest_away_widened (f : float) (n : Z) :
  valid_float f = true -> is_nearest_away (double_of_float f) n = is_nearest_away f n.
Proof.
  intros Hv. destruct f as [s|s| |s m e]; try reflexivity.
  pose proof (double_of_float_finite s m e Hv) as [Ew _]. cbv zeta in Ew. rewrite Ew.
  apply bounded_float in Hv as (_ & Hd & _).
  destruct (magnitude_scaled m e (53 - Zpos (digits2_pos m)) ltac:(lia)) as (c & Hc & E1 & E2).
  cbn [is_nearest_away].
  destruct (magnitude (Z.to_pos _) _) as [num' den'], (magnitude m e) as [num den].
  cbn [fst snd] in E1, E2. subst num' den'.
  rewrite !Z.mul_assoc, leb_scale, ltb_scale by exact Hc. reflexivity.
Qed.

Lemma widened_valid (f : float) :
  valid_float f = true ->
  valid_double (double_of_float f) = true /\ SFabs (double_of_float f) <> d_pred_half.
Proof.
  intros Hv. destruct f as [s|s| |s m e]; try (split; [reflexivity|discriminate]).
  pose proof (double_of_float_finite s m e Hv) as [Ew Hbw]. cbv zeta in Ew, Hbw. rewrite Ew.
  split; [exact Hbw|]. cbn [SFabs]. apply widened_not_pred_half.
  apply bounded_float in Hv as (_ & Hd & _). lia.
Qed.

Lemma iround_widened (f : float) :
  valid_float f = true ->
  iround (double_of_float f)
    = match round_half_away f with Some n => checked_int n | None => None end.
Proof.
  intros Hv. destruct (widened_valid f Hv) as [Hvd Hne].
  rewrite iround_characterised by assumption.
  destruct (round_half_away (double_of_float f)) as [k|] eqn:Ek.
  - apply round_half_away_is_nearest in Ek. rewrite is_nearest_away_widened in Ek by exact Hv.
    rewrite (is_nearest_away_unique f k Ek). reflexivity.
  - destruct f as [s|s| |s m e]; try reflexivity; try discriminate Ek.
    pose proof (double_of_float_finite s m e Hv) as [Ew _]. cbv zeta in Ew.
    rewrite Ew in Ek. discriminate Ek.
Qed.

(** [iround32] rounds the [float] itself to the nearest integer, a tie
    going away from zero, on every [float]. *)
Theorem iround32_nearest (f y : float) :
  valid_float f = true ->
  (iround32 f = Some y <->
   exists n, is_nearest_away f n = true /\ in_int_range n = true /\ y = float_of_int n).
Proof.
  intros Hv. unfold iround32, FUNC32. rewrite iround_widened by exact Hv. split.
  - destruct (round_half_away f) as [k|] eqn:Ek; [|discriminate].
    unfold checked_int. destruct (in_int_range k) eqn:Er; [|discriminate].
    cbn [option_map]. intros [= <-]. exists k.
    split; [apply round_half_away_is_nearest; exact Ek|]. split; [exact Er|reflexivity].
  - intros (n & Hn & Hr & ->). rewrite (is_nearest_away_unique f n Hn).
    unfold checked_int. rewrite Hr. reflexivity.
Qed.

(** At 2.5f, rounded to 3.0f. *)
Lemma iround32_nearest_at_2_5 :
  iround32 (float_lit 25 10) = Some (float_lit 3 1) <->
  exists n, is_nearest_away (float_lit 25 10) n = true /\ in_int_range n = true /\
            float_lit 3 1 = float_of_int n.
Proof. apply (iround32_nearest (float_lit 25 10) (float_lit 3 1)). reflexivity. Defined.

Lemma float_of_int_valid (n : Z) : valid_float (float_of_int n) = true.
Proof.
  unfold float_of_int. destruct n as [|p|p]; [reflexivity| |].
  - change (Zpos p) with (cond_Zopp false (Zpos p)).
    rewrite binary_normalize_nonzero by lia. apply round_spec_valid; lia.
  - change (Zneg p) with (cond_Zopp true (Zpos p)).
    rewrite binary_normalize_nonzero by lia. apply round_spec_valid; lia.
Qed.

(** [iround32] is idempotent: a [float] it returned is returned unchanged
    when rounded again. *)
Theorem iround32_idempotent (f y : float) :
  valid_float f = true -> iround32 f = Some y -> iround32 y = Some y.
Proof.
  intros Hv Hy.
  destruct (iround32_result_exact f y Hv Hy) as (n & Hn & -> & Hr).
  rewrite iround_widened in Hn by exact Hv.
  assert (Hrange : in_int_range n = true).
  { destruct (round_half_away f) as [k|]; [|discriminate]. unfold checked_int in Hn.
    destruct (in_int_range k) eqn:Er; [|discriminate]. injection Hn as <-. exact Er. }
  unfold iround32, FUNC32. rewrite iround_widened by apply float_of_int_valid.
  rewrite (is_nearest_away_unique _ n (represents_int_nearest _ n Hr)).
  unfold checked_int. rewrite Hrange. reflexivity.
Qed.

(** At 3.0f, the result for 2.5f. *)
Lemma iround32_idempotent_at_2_5 : iround32 (float_lit 3 1) = Some (float_lit 3 1).
Proof.
  apply (iround32_idempotent (float_lit 25 10) (float_lit 3 1)); reflexivity.
Defined.

(** ** Widening is exact *)

(** Widening a [float] gives a [double] of the same value and narrowing
    undoes it: the conversions of [FUNC32] lose nothing of the argument,
    and a wrapper of a function that returns its argument returns [f]. *)
Theorem float_of_double_of_float (f : float) :
  valid_float f = true ->
  valid_double (double_of_float f) = true /\
  same_value (double_of_float f) f = true /\
  float_of_double (double_of_float f) = f /\
  FUNC32 (fun x : double => x) float_of_double f = f.
Proof.
  intros Hv.
  assert (H : valid_double (double_of_float f) = true /\
              same_value (double_of_float f) f = true /\
              float_of_double (double_of_float f) = f); [|tauto].
  destruct f as [s|s| |s m e];
    try (split; [reflexivity|split; [destruct s; reflexivity|reflexivity]]);
    [split; [reflexivity|split; reflexivity]|].
  pose proof (double_of_float_finite s m e Hv) as [Ew Hbw]. cbv zeta in Ew, Hbw.
  pose proof Hv as Hb. apply bounded_float in Hb as (He & Hd & _).
  set (k := 53 - Zpos (digits2_pos m)) in *.
  assert (Hk : 29 <= k) by (unfold k; lia).
  assert (Hpk : 0 < 2 ^ k) by (apply Z.pow_pos_nonneg; lia).
  rewrite Ew. split; [exact Hbw|]. split.
  { cbn [same_value]. rewrite Bool.eqb_reflx. cbn [andb].
    destruct (magnitude_scaled m e k ltac:(lia)) as (c & Hc & E1 & E2).
    rewrite E1, E2. apply Z.eqb_eq. ring. }
  cbn [float_of_double]. rewrite binary_normalize_nonzero by lia.
  rewrite Z2Pos.id by lia.
  unfold round_spec. rewrite Zdigits2_shl by lia.
  assert (Ecan : fexp 24 128 (Zpos (digits2_pos m) + k + (e - k)) = e).
  { replace (Zpos (digits2_pos m) + k + (e - k)) with (Zpos (digits2_pos m) + e) by lia.
    unfold valid_float, valid_binary, bounded, canonical_mantissa in Hv.
    apply andb_true_iff in Hv as [Hc _]. apply Z.eqb_eq in Hc. exact Hc. }
  rewrite Ecan. destruct (Z.leb_spec e (e - k)) as [?|_]; [lia|].
  replace (e - (e - k)) with k by lia.
  rewrite Z.div_mul by lia.
  assert (Hrb : Z.odd (Zpos m * 2 ^ k / 2 ^ (k - 1)) = false).
  { replace k with (1 + (k - 1)) at 1 by lia. rewrite Z.pow_add_r by lia.
    rewrite Z.mul_assoc, Z.div_mul by (pose proof (Z.pow_pos_nonneg 2 (k - 1)); lia).
    rewrite Z.odd_mul. apply andb_false_r. }
  rewrite Hrb. unfold round_even. cbn [andb].
  pose proof (digits2_pos_bounds m) as [_ Hu].
  assert (Zpos m < 2 ^ 24).
  { eapply Z.lt_le_trans; [exact Hu|]. apply Z.pow_le_mono_r; lia. }
  destruct (Z.eqb_spec (Zpos m) (2 ^ 24)); [lia|].
  cbn [fin_or_inf]. destruct (Z.leb_spec e (128 - 24)); [reflexivity|lia].
Qed.

(** At 0.1f, which is 13421773 * 2^-27 as a [float] and as a [double]. *)
Lemma float_of_double_of_float_at_0_1 :
  valid_double (double_of_float (float_lit 1 10)) = true /\
  same_value (double_of_float (float_lit 1 10)) (float_lit 1 10) = true /\
  float_of_double (double_of_float (float_lit 1 10)) = float_lit 1 10 /\
  FUNC32 (fun x : double => x) float_of_double (float_lit 1 10) = float_lit 1 10.
Proof. exact (float_of_double_of_float (float_lit 1 10) eq_refl). Defined.

(** ** [new] of a negative size *)

(** A negative [size] is not refused by [new]: converted to [size_t] it is
    [2^bits + size], a request of at least [2^bits - 2^31] bytes, which
    [malloc] receives as it is. *)
Theorem new_negative_size (bits : Z) (os : platform) (st : pstate os) (size : Z) :
  32 <= bits -> INT_MIN <= size < 0 ->
  let req := 2 ^ bits + size in
  let ans := answer os pointer (Malloc req) st in
  run os (new bits size) st = (fst ans, snd ans, [Ev_malloc req (fst ans)]) /\
  2 ^ bits - 2 ^ 31 <= req < 2 ^ bits.
Proof.
  intros Hbits [Hlo Hhi] req ans. unfold INT_MIN in Hlo.
  assert (Hp : 2 ^ 32 <= 2 ^ bits) by (apply Z.pow_le_mono_r; lia).
  change (2 ^ 32) with (2 * 2 ^ 31) in Hp.
  assert (Ereq : size_t_of_int bits size = req).
  { unfold size_t_of_int, req. symmetry. apply (Z.mod_unique_pos _ _ (-1)); lia. }
  split; [|unfold req; lia].
  unfold new. cbn [run]. rewrite Ereq. fold ans. destruct ans as [p st1]. reflexivity.
Qed.

(** [new (-1)] with a 32-bit [size_t] asks for 4294967295 bytes; on a heap
    of 1000 bytes the answer is the null pointer. *)
Lemma new_minus_one_on_small_heap :
  run (demo_platform 0 1000) (new 32 (-1)) 0 = (NULL, 0, [Ev_malloc 4294967295 NULL]) /\
  2 ^ 32 - 2 ^ 31 <= 2 ^ 32 + -1 < 2 ^ 32.
Proof.
  exact (new_negative_size 32 (demo_platform 0 1000) 0 (-1) ltac:(lia)
           ltac:(unfold INT_MIN; lia)).
Defined.
